(** * datos token layer and storage score keeper: a shallow embedding

    The development follows the sources file by file:
    - [token/token.h]        : the constants, [CToken] and its [operator==];
    - [token/wallet.cpp]     : [FundMintTransaction], [FundTokenTransaction],
                               [SignTokenTransaction], [GetUnconfirmedTokenBalance];
    - [storage/behavior.cpp] : [CNodeBehavior] and [AddProof].

    Integers are carried by [Z]; the 64-bit and 32-bit signed additions of
    the sources are written with their two's-complement wrap-around.
    Reference parameters that a function writes become components of its
    result.  Collaborators whose bodies live outside these files (the
    script classifiers, the chain and mempool views, the signing engine)
    are fields of an interface record or class. *)

From Stdlib Require Import ZArith List String Ascii Bool Lia.
From Stdlib.Strings Require Import Byte.
From stdpp Require Import base gmap strings list.

Local Open Scope Z_scope.

(* ================================================================== *)
(** * Machine integers *)
(* ================================================================== *)

Module MachineInt.

(** Two's-complement reduction of an integer to [bits] bits. *)
Definition wrap_signed (bits : Z) (z : Z) : Z :=
  (z + 2 ^ (bits - 1)) mod 2 ^ bits - 2 ^ (bits - 1).

(** [CAmount] is [int64_t]. *)
Definition CAmount := Z.
Definition amount_add (a b : CAmount) : CAmount := wrap_signed 64 (a + b).

(** [int] is 32 bits wide. *)
Definition int_add (a b : Z) : Z := wrap_signed 32 (a + b).
Definition int_sub (a b : Z) : Z := wrap_signed 32 (a - b).

Definition INT_MAX : Z := 2 ^ 31 - 1.

(** One byte from the low eight bits of an integer, and back. *)
Definition byte_of_Z (z : Z) : byte :=
  match Byte.of_N (Z.to_N (z mod 256)) with
  | Some b => b
  | None => x00
  end.

Definition Z_of_byte (b : byte) : Z := Z.of_N (Byte.to_N b).

(** Little-endian fixed-width integers. *)
Fixpoint le_bytes (width : nat) (z : Z) : list byte :=
  match width with
  | O => []
  | S w => byte_of_Z z :: le_bytes w (z / 256)
  end.

Fixpoint le_value (bs : list byte) : Z :=
  match bs with
  | [] => 0
  | b :: rest => Z_of_byte b + 256 * le_value rest
  end.

End MachineInt.

Import MachineInt.

(* ================================================================== *)
(** * token/token.h *)
(* ================================================================== *)

Module Token.

Definition TOKEN_IDRANGE : Z := 16.
Definition TOKEN_MINCONFS : Z := 1.
Definition TOKENNAME_MINLEN : Z := 3.
Definition TOKENNAME_MAXLEN : Z := 12.
Definition TOKEN_VALUEMAX : CAmount := 2 ^ 31 - 1.

(** The anonymous enum of [CToken]. *)
Definition NONE : Z := 0.
Definition ISSUANCE : Z := 1.
Definition TRANSFER : Z := 2.

Definition CURRENT_VERSION : Z := 1.

(** [uint8_t version; uint16_t type; uint64_t uid; std::string name;
    uint256 origintx]. *)
Record CToken := mkToken {
  version : Z;
  type : Z;
  uid : Z;
  name : string;
  origintx : Z
}.

(** The default constructor. *)
Definition CToken_default : CToken :=
  {| version := CURRENT_VERSION; type := NONE; uid := 0;
     name := EmptyString; origintx := 0 |}.

Definition getId (t : CToken) : Z := uid t.
Definition getType (t : CToken) : Z := type t.
Definition getVersion (t : CToken) : Z := version t.
Definition getName (t : CToken) : string := name t.
Definition getOriginTx (t : CToken) : Z := origintx t.

Definition setId (thisId : Z) (t : CToken) : CToken :=
  {| version := version t; type := type t; uid := thisId;
     name := name t; origintx := origintx t |}.
Definition setType (thisType : Z) (t : CToken) : CToken :=
  {| version := version t; type := thisType; uid := uid t;
     name := name t; origintx := origintx t |}.
Definition setVersion (thisVersion : Z) (t : CToken) : CToken :=
  {| version := thisVersion; type := type t; uid := uid t;
     name := name t; origintx := origintx t |}.
Definition setName (thisName : string) (t : CToken) : CToken :=
  {| version := version t; type := type t; uid := uid t;
     name := thisName; origintx := origintx t |}.
Definition setOriginTx (hash : Z) (t : CToken) : CToken :=
  {| version := version t; type := type t; uid := uid t;
     name := name t; origintx := hash |}.

Definition isIssuance (t : CToken) : bool := getType t =? ISSUANCE.
Definition isTransfer (t : CToken) : bool := getType t =? TRANSFER.

(** [bool operator==(CToken& other)]. *)
Definition token_eq (a other : CToken) : bool :=
  (getId a =? getId other) && String.eqb (getName a) (getName other).

End Token.

Import Token.

(** Scripts are byte strings. *)
Definition CScript := list byte.

(* ================================================================== *)
(** * The token script codec (declared in token/token.h) *)
(* ================================================================== *)

Module Codec.

Inductive DecodeResult :=
| NotTokenScript
| MalformedTokenScript
| DecodedToken (version type uid : Z) (name : string) (owner : CScript).

(** Splits [n] bytes off the front of a script, if it has that many. *)
Definition take_bytes (n : nat) (s : CScript) : option (list byte * CScript) :=
  if (n <=? length s)%nat then Some (firstn n s, skipn n s) else None.

(** The script starts with the given tag byte. *)
Definition starts_with (tag : byte) (s : CScript) : bool :=
  match s with
  | b :: _ => Byte.eqb b tag
  | [] => false
  end.

Section WithTag.

(** The byte that tags a pay-to-token script; the layout leaves its
    value open. *)
Variable OP_TOKEN : byte.

(** Modelled from the spec: the body of [BuildTokenScript] (token.cpp)
    is not among the sources, only its declaration in token.h.  The
    script is the pay-to-token tag, then the fields in the fixed order
    version (one byte), type (two bytes), uid (eight bytes), the name
    with a one-byte length prefix, then the backing owner script. *)
Definition BuildTokenScript (version type uid : Z) (name : string)
    (scriptPubKey : CScript) : CScript :=
  OP_TOKEN
    :: le_bytes 1 version
    ++ le_bytes 2 type
    ++ le_bytes 8 uid
    ++ byte_of_Z (Z.of_nat (String.length name))
    :: list_byte_of_string name
    ++ scriptPubKey.

(** Modelled from the spec: the body of [DecodeTokenScript] (token.cpp)
    is not among the sources.  A script that does not start with the
    tag is "not a token script"; a tagged script whose fields run out
    of bytes is "malformed"; otherwise the fields are read back in the
    order they were written and the rest is the owner part. *)
Definition DecodeTokenScript (TokenScript : CScript) : DecodeResult :=
  match TokenScript with
  | [] => NotTokenScript
  | tag :: body =>
    if Byte.eqb tag OP_TOKEN then
      match take_bytes 1 body with
      | None => MalformedTokenScript
      | Some (v, r1) =>
        match take_bytes 2 r1 with
        | None => MalformedTokenScript
        | Some (t, r2) =>
          match take_bytes 8 r2 with
          | None => MalformedTokenScript
          | Some (i, r3) =>
            match r3 with
            | [] => MalformedTokenScript
            | len :: r4 =>
              match take_bytes (Z.to_nat (Z_of_byte len)) r4 with
              | None => MalformedTokenScript
              | Some (n, owner) =>
                DecodedToken (le_value v) (le_value t) (le_value i)
                             (string_of_list_byte n) owner
              end
            end
          end
        end
      end
    else NotTokenScript
  end.

(** Modelled from the spec: [IsPayToToken] recognises the tag. *)
Definition IsPayToToken_tag (s : CScript) : bool := starts_with OP_TOKEN s.

(** Modelled from the spec: [BuildTokenFromScript] composes the decoder
    into a token record; the origin transaction is not in the script. *)
Definition BuildTokenFromScript_codec (s : CScript) : option CToken :=
  match DecodeTokenScript s with
  | DecodedToken v t i n _ =>
    Some {| version := v; type := t; uid := i; name := n; origintx := 0 |}
  | _ => None
  end.

(** Modelled from the spec: [ContextualCheckToken] (declared in
    token/verify.h) decodes the script and checks the name length and
    the type; it writes the token, and a reason when it fails. *)
Definition ContextualCheckToken_codec (s : CScript) (token : CToken)
    : bool * CToken * option string :=
  match BuildTokenFromScript_codec s with
  | None => (false, token, Some "token-script-invalid"%string)
  | Some t =>
    let len := Z.of_nat (String.length (getName t)) in
    if (len <? TOKENNAME_MINLEN) || (TOKENNAME_MAXLEN <? len) then
      (false, t, Some "token-name-length-invalid"%string)
    else if isIssuance t || isTransfer t then (true, t, None)
    else (false, t, Some "token-type-invalid"%string)
  end.

End WithTag.

End Codec.

(* ================================================================== *)
(** * Loops with an early [return] *)
(* ================================================================== *)

Module Loop.

(** What a loop body hands back: go on with the next element, or leave
    the enclosing function at once. *)
Inductive flow (S : Type) : Type :=
| Next (s : S)
| Done (s : S).
Arguments Next {S} s.
Arguments Done {S} s.

Fixpoint for_each {A S : Type} (body : A -> S -> flow S) (l : list A) (s : S)
    : flow S :=
  match l with
  | [] => Next s
  | x :: rest =>
    match body x s with
    | Next s' => for_each body rest s'
    | Done s' => Done s'
    end
  end.

(** [for (n = start; ...; n++)] over a vector: elements with their index. *)
Fixpoint enumerate_from {A : Type} (start : nat) (l : list A) : list (nat * A) :=
  match l with
  | [] => []
  | x :: rest => (start, x) :: enumerate_from (S start) rest
  end.

Definition enumerate {A : Type} (l : list A) : list (nat * A) :=
  enumerate_from 0 l.

End Loop.

Import Loop.

(* ================================================================== *)
(** * token/wallet.cpp *)
(* ================================================================== *)

Module Wallet.

Definition uint256 := Z.

Record COutPoint := mkOutPoint { hash : uint256; n : Z }.

Record CTxIn := mkTxIn { prevout : COutPoint; scriptSig : CScript }.

(** [CTxIn(COutPoint)]: an input with an empty unlocking script. *)
Definition CTxIn_of (o : COutPoint) : CTxIn :=
  {| prevout := o; scriptSig := [] |}.

Record CTxOut := mkTxOut { nValue : CAmount; scriptPubKey : CScript }.

Record CTransaction := mkTx {
  GetHash : uint256;
  vin : list CTxIn;
  vout : list CTxOut
}.

Record CWalletTx := mkWalletTx { tx : CTransaction }.

(** Script-side collaborators, whose bodies are outside these files.
    [BuildTokenFromScript] answers the token it wrote when it returns
    true.  [ContextualCheckToken] answers its return value, the token it
    leaves in its second argument, and what it writes to [strError] if it
    writes it (the argument is written, never read). *)
Class ScriptOps := {
  IsPayToToken : CScript -> bool;
  IsChecksumData : CScript -> bool;
  IsTokenOutput : CTxOut -> bool;
  HasTokenOutput : CTransaction -> bool;
  BuildTokenFromScript : CScript -> option CToken;
  ContextualCheckToken : CScript -> CToken -> bool * CToken * option string
}.

(** The wallet: its transactions in iteration order, and the queries the
    funding loops put to it. *)
Record CWallet := mkWallet {
  mapWallet : list (uint256 * CWalletTx);
  GetSpendableTXs : list CWalletTx;
  IsInMempool : uint256 -> bool;
  IsOutputUnspent : COutPoint -> bool;
  IsMine : CTxOut -> bool;
  GetUTXOConfirmations : COutPoint -> Z;
  IsOutputInMempool : COutPoint -> bool
}.

(** [amountFound] and [ret], the two reference parameters the funding
    functions write. *)
Definition FundState : Type := CAmount * list CTxIn.

Section Funding.
Context `{ScriptOps}.
Variable w : CWallet.

(** Body of the inner loop of [FundMintTransaction]. *)
Definition mint_visit (amountMin : CAmount) (txHash : uint256)
    (nout : nat * CTxOut) (st : FundState) : flow FundState :=
  let '(idx, out) := nout in
  let wtx_out := mkOutPoint txHash (Z.of_nat idx) in
  if IsInMempool w txHash then Next st
  else if negb (IsOutputUnspent w wtx_out) then Next st
  else if negb (IsMine w out) then Next st
  else if GetUTXOConfirmations w wtx_out <? TOKEN_MINCONFS + 1 then Next st
  else if IsOutputInMempool w wtx_out then Next st
  else
    let pk := scriptPubKey out in
    let inputValue := nValue out in
    if negb (IsPayToToken pk) && negb (IsChecksumData pk) then
      let amountFound := amount_add (fst st) inputValue in
      let ret := snd st ++ [CTxIn_of (mkOutPoint txHash (Z.of_nat idx))] in
      if amountMin <=? amountFound then Done (amountFound, ret)
      else Next (amountFound, ret)
    else Next st.

Definition FundMintTransaction (amountMin : CAmount) (ret : list CTxIn)
    : bool * CAmount * list CTxIn :=
  let amountFound := 0 in
  let spendableTx := GetSpendableTXs w in
  match
    for_each
      (fun out st =>
         let txHash := GetHash (tx out) in
         for_each (mint_visit amountMin txHash) (enumerate (vout (tx out))) st)
      spendableTx (amountFound, ret)
  with
  | Done (found, r) => (true, found, r)
  | Next (found, r) => (false, found, r)
  end.

(** Body of the inner loop of [FundTokenTransaction]. *)
Definition token_visit (tokenname : string) (amountMin : CAmount)
    (txHash : uint256) (nout : nat * CTxOut) (st : FundState)
    : flow FundState :=
  let '(idx, out) := nout in
  let wtx_out := mkOutPoint txHash (Z.of_nat idx) in
  if negb (IsTokenOutput out) then Next st
  else if IsInMempool w txHash then Next st
  else if negb (IsOutputUnspent w wtx_out) then Next st
  else if negb (IsMine w out) then Next st
  else if GetUTXOConfirmations w wtx_out <? TOKEN_MINCONFS + 1 then Next st
  else if IsOutputInMempool w wtx_out then Next st
  else
    let pk := scriptPubKey out in
    let inputValue := nValue out in
    if negb (IsChecksumData pk) then
      match BuildTokenFromScript pk with
      | None => Next st
      | Some token =>
        if String.eqb tokenname (getName token) then
          let amountFound := amount_add (fst st) inputValue in
          let ret := snd st ++ [CTxIn_of (mkOutPoint txHash (Z.of_nat idx))] in
          if amountMin <=? amountFound then Done (amountFound, ret)
          else Next (amountFound, ret)
        else Next st
      end
    else Next st.

Definition FundTokenTransaction (tokenname : string) (amountMin : CAmount)
    (ret : list CTxIn) : bool * CAmount * list CTxIn :=
  let amountFound := 0 in
  let walletInst := mapWallet w in
  match
    for_each
      (fun out st =>
         let wtx := snd out in
         let txHash := GetHash (tx wtx) in
         for_each (token_visit tokenname amountMin txHash)
                  (enumerate (vout (tx wtx))) st)
      walletInst (amountFound, ret)
  with
  | Done (found, r) => (true, found, r)
  | Next (found, r) => (false, found, r)
  end.

(** [balances[name] += value] on a [std::map]: a missing key starts
    from zero. *)
Definition credit (balances : gmap string CAmount) (name : string)
    (value : CAmount) : gmap string CAmount :=
  <[name := amount_add (default 0 (balances !! name)) value]> balances.

(** Body of the inner loop of [GetUnconfirmedTokenBalance]; the state is
    the caller's [balances] map and [strError]. *)
Definition balance_visit (out : CTxOut)
    (st : gmap string CAmount * string)
    : flow (gmap string CAmount * string) :=
  let '(balances, strError) := st in
  let TokenScript := scriptPubKey out in
  if IsPayToToken TokenScript && IsMine w out then
    let '(ok, token, written) :=
      ContextualCheckToken TokenScript CToken_default in
    let strError := default strError written in
    if negb ok then
      Done (balances, "corrupt-invalid-existing-mempool"%string)
    else
      let name := getName token in
      let value := nValue out in
      Next (credit balances name value, strError)
  else Next st.

(** [pool] lists the transactions of [pool.mapTx] in iteration order. *)
Definition GetUnconfirmedTokenBalance (pool : list CTransaction)
    (balances : gmap string CAmount) (strError : string)
    : bool * gmap string CAmount * string :=
  match
    for_each
      (fun mtx st =>
         if HasTokenOutput mtx then for_each balance_visit (vout mtx) st
         else Next st)
      pool (balances, strError)
  with
  | Done (b, e) => (false, b, e)
  | Next (b, e) => (true, b, e)
  end.

End Funding.

(** ** SignTokenTransaction *)

(** An entry of the coin views: the output and whether it is spent. *)
Record Coin := mkCoin { out : CTxOut; IsSpent : bool }.

(** [coinEmpty], what [AccessCoin] answers for an outpoint it cannot find. *)
Definition coinEmpty : Coin :=
  {| out := {| nValue := -1; scriptPubKey := [] |}; IsSpent := true |}.

(** A [CCoinsViewCache]: the coins fetched so far, over a backend. *)
Definition CoinsCache : Type := gmap (uint256 * Z) Coin.

Definition outpoint_key (o : COutPoint) : uint256 * Z := (hash o, n o).

(** [view.AccessCoin(outpoint)]: the cached coin, else the backend's coin
    (which enters the cache), else [coinEmpty]. *)
Definition AccessCoin (backend : COutPoint -> option Coin) (cache : CoinsCache)
    (o : COutPoint) : Coin * CoinsCache :=
  match cache !! outpoint_key o with
  | Some c => (c, cache)
  | None =>
    match backend o with
    | Some c => (c, <[outpoint_key o := c]> cache)
    | None => (coinEmpty, cache)
    end
  end.

(** [CCoinsView viewDummy]: a backend that holds nothing. *)
Definition viewDummy : COutPoint -> option Coin := fun _ => None.

Record CMutableTransaction := mkMutTx {
  mvin : list CTxIn;
  mvout : list CTxOut
}.

Definition ScriptError := Z.
Definition SCRIPT_ERR_OK : ScriptError := 0.

Definition SIGHASH_ALL : Z := 1.
Definition SIGHASH_SINGLE : Z := 3.
Definition SIGHASH_ANYONECANPAY : Z := 128.

(** The signing and script-verification engine, as the signer uses it.
    [SignSignature] and the [DataFromTransaction] / [ProduceSignature] /
    [UpdateInput] group each leave a new unlocking script on input [i]. *)
Class SigningEngine := {
  SignSignature :
    CScript -> CMutableTransaction -> nat -> CAmount -> Z -> CScript;
  MergeSignature :
    CScript -> CMutableTransaction -> nat -> CTxOut -> CAmount -> Z -> CScript;
  VerifyScript :
    CScript -> CScript -> CMutableTransaction -> nat -> CAmount
    -> bool * ScriptError;
  ScriptErrorString : ScriptError -> string
}.

(** [rawTx.vin[i].scriptSig = sig]. *)
Definition set_scriptSig (rawTx : CMutableTransaction) (i : nat) (sig : CScript)
    : CMutableTransaction :=
  {| mvin := alter (fun txin => {| prevout := prevout txin; scriptSig := sig |})
                   i (mvin rawTx);
     mvout := mvout rawTx |}.

Section Signing.
Context `{SigningEngine}.

(** The first loop: load every input's previous output into the cache. *)
Definition prefetch (backend : COutPoint -> option Coin)
    (inputs : list CTxIn) (cache : CoinsCache) : CoinsCache :=
  fold_left (fun c txin => snd (AccessCoin backend c (prevout txin)))
            inputs cache.

(** Body of the signing loop; the state is [rawTx] and [strError]. *)
Definition sign_visit (view : CoinsCache) (i : nat)
    (st : CMutableTransaction * string)
    : flow (CMutableTransaction * string) :=
  let '(rawTx, strError) := st in
  let nHashType := SIGHASH_ALL in
  let fHashSingle :=
    Z.land nHashType (Z.lnot SIGHASH_ANYONECANPAY) =? SIGHASH_SINGLE in
  let txin := nth i (mvin rawTx) (CTxIn_of (mkOutPoint 0 0)) in
  let coin := fst (AccessCoin viewDummy view (prevout txin)) in
  if IsSpent coin then
    Done (rawTx, "Input not found or already spent"%string)
  else
    let prevPubKey := scriptPubKey (out coin) in
    let amount := nValue (out coin) in
    let rawTx1 :=
      if negb fHashSingle || (i <? length (mvout rawTx))%nat then
        set_scriptSig rawTx i
          (SignSignature prevPubKey rawTx i amount nHashType)
      else rawTx in
    let rawTx2 :=
      set_scriptSig rawTx1 i
        (MergeSignature prevPubKey rawTx1 i (out coin) amount nHashType) in
    let txin2 := nth i (mvin rawTx2) (CTxIn_of (mkOutPoint 0 0)) in
    let '(ok, serror) :=
      VerifyScript (scriptSig txin2) prevPubKey rawTx2 i amount in
    if negb ok then Done (rawTx2, ScriptErrorString serror)
    else Next (rawTx2, strError).

(** The signing loop over the inputs [from, from + count). *)
Definition sign_inputs (view : CoinsCache) (from count : nat)
    (st : CMutableTransaction * string)
    : flow (CMutableTransaction * string) :=
  for_each (sign_visit view) (seq from count) st.

(** [viewAll] is the chain view overlaid with the mempool, as
    [CCoinsViewMemPool] answers [GetCoin]. *)
Definition SignTokenTransaction (viewAll : COutPoint -> option Coin)
    (rawTx : CMutableTransaction) (strError : string)
    : bool * CMutableTransaction * string :=
  let strError := "No error"%string in
  let view := prefetch viewAll (mvin rawTx) ∅ in
  match sign_inputs view 0 (length (mvin rawTx)) (rawTx, strError) with
  | Done (t, e) => (false, t, e)
  | Next (t, e) => (true, t, e)
  end.

End Signing.

End Wallet.

(* ================================================================== *)
(** * storage/behavior.cpp *)
(* ================================================================== *)

Module StorageNode.
(** One entry of [CProof::nodes]. *)
Record t := mk { ip : Z; space : Z; mode : Z; stat : Z; reg : Z }.
End StorageNode.

Module Behavior.

(** [struct NodeHistory]: [uint32_t ipaddr], [space], [int health]. *)
Record NodeHistory := mkNode { ipaddr : Z; space : Z; health : Z }.

Record CNetworkProof := mkProof {
  height : Z;
  proof_nodes : list StorageNode.t
}.

(** The members of [CNodeBehavior]. *)
Record CNodeBehavior := mkBehavior {
  nodes : list NodeHistory;
  seen : list Z
}.

Definition SetSeen (h : Z) (s : CNodeBehavior) : CNodeBehavior :=
  if existsb (Z.eqb h) (seen s) then s
  else {| nodes := nodes s; seen := seen s ++ [h] |}.

Definition HaveSeen (h : Z) (s : CNodeBehavior) : bool :=
  existsb (fun l => l =? h) (seen s).

Fixpoint HaveNode_in (ip : Z) (ns : list NodeHistory) : bool :=
  match ns with
  | [] => false
  | l :: rest => if ipaddr l =? ip then true else HaveNode_in ip rest
  end.

Definition HaveNode (ip : Z) (s : CNodeBehavior) : bool :=
  HaveNode_in ip (nodes s).

(** [blank] stands for the uninitialised struct returned when the
    address is not stored. *)
Fixpoint ReturnNode_in (blank : NodeHistory) (ip : Z) (ns : list NodeHistory)
    : NodeHistory :=
  match ns with
  | [] => blank
  | l :: rest => if ipaddr l =? ip then l else ReturnNode_in blank ip rest
  end.

Definition ReturnNode (blank : NodeHistory) (ip : Z) (s : CNodeBehavior)
    : NodeHistory :=
  ReturnNode_in blank ip (nodes s).

(** The loop of [ReplaceNode].  Its condition is the assignment
    [l.ipaddr = in.ipaddr]: the stored address is overwritten, and the
    branch is taken when the assigned value is non-zero. *)
Fixpoint ReplaceNode_in (i : NodeHistory) (ns : list NodeHistory)
    : bool * list NodeHistory :=
  match ns with
  | [] => (false, [])
  | l :: rest =>
    let l1 := {| ipaddr := ipaddr i; space := space l; health := health l |} in
    if negb (ipaddr l1 =? 0) then (true, i :: rest)
    else
      let '(r, rest') := ReplaceNode_in i rest in
      (r, l1 :: rest')
  end.

Definition ReplaceNode (i : NodeHistory) (s : CNodeBehavior)
    : bool * CNodeBehavior :=
  let '(r, ns) := ReplaceNode_in i (nodes s) in
  (r, {| nodes := ns; seen := seen s |}).

Definition AddNode (i : NodeHistory) (s : CNodeBehavior) : CNodeBehavior :=
  {| nodes := nodes s ++ [i]; seen := seen s |}.

(** The lookup the claim describes: replace the stored node whose address
    compares equal to the input's. *)
Fixpoint ReplaceNode_by_equality (i : NodeHistory) (ns : list NodeHistory)
    : bool * list NodeHistory :=
  match ns with
  | [] => (false, [])
  | l :: rest =>
    if ipaddr l =? ipaddr i then (true, i :: rest)
    else
      let '(r, rest') := ReplaceNode_by_equality i rest in
      (r, l :: rest')
  end.

Section AddProof.

(** [SCORE_INCREASE] and [SCORE_DECREASE] come from storage/behavior.h. *)
Variable SCORE_INCREASE : Z.
Variable SCORE_DECREASE : Z.

(** The contents of an uninitialised [NodeHistory]. *)
Variable blank : NodeHistory.

(** State of the first loop: the object, the local [in2] and the local
    [seen_nodes]. *)
Definition ProofState : Type := CNodeBehavior * NodeHistory * list Z.

(** Body of the loop over [proof.nodes]. *)
Definition proof_visit (i : StorageNode.t) (st : ProofState) : ProofState :=
  let '(s, in2, seen_nodes) := st in
  let '(s, in2) :=
    if negb (HaveNode (StorageNode.ip i) s) then
      let in2 := {| ipaddr := StorageNode.ip i;
                    space := StorageNode.space i;
                    health := 100 |} in
      (AddNode in2 s, in2)
    else (s, in2) in
  if HaveNode (StorageNode.ip i) s then
    let in2 := ReturnNode blank (StorageNode.ip i) s in
    let seen_nodes := seen_nodes ++ [StorageNode.ip i] in
    let in2 :=
      if (0 <? StorageNode.mode i) && (0 <? StorageNode.stat i)
         && (0 <? StorageNode.reg i)
      then {| ipaddr := ipaddr in2; space := space in2;
              health := int_add (health in2) SCORE_INCREASE |}
      else in2 in
    let in2 :=
      if 100 <? health in2
      then {| ipaddr := ipaddr in2; space := space in2; health := 100 |}
      else in2 in
    (snd (ReplaceNode in2 s), in2, seen_nodes)
  else (s, in2, seen_nodes).

(** Body of the loop over [nodes] that lowers the score of every node
    the proof did not mention. *)
Definition decay_visit (seen_nodes : list Z) (l : NodeHistory) : NodeHistory :=
  if existsb (Z.eqb (ipaddr l)) seen_nodes then l
  else
    let h := int_sub (health l) SCORE_DECREASE in
    {| ipaddr := ipaddr l; space := space l;
       health := if h <? 0 then 0 else h |}.

Definition AddProof (netproof : CNetworkProof) (s : CNodeBehavior)
    : CNodeBehavior :=
  if HaveSeen (height netproof) s then s
  else
    let '(s1, _, seen_nodes) :=
      fold_left (fun st i => proof_visit i st) (proof_nodes netproof)
                (s, blank, []) in
    {| nodes := map (decay_visit seen_nodes) (nodes s1); seen := seen s1 |}.

(** The heights [first], [first + 1], ..., [last] of a counting loop. *)
Definition heights_between (first last : Z) : list Z :=
  map (fun k => first + Z.of_nat k) (seq 0 (Z.to_nat (last - first + 1))).

(** [Init].  [start_height] is [::ChainActive().Height()], [nLastPoWBlock]
    the consensus parameter, and [netProofAt h] the [netProof] of the block
    that [ReadBlockFromDisk] delivers for height [h].  The stored nodes are
    cleared; the seen heights are not. *)
Definition Init (start_height nLastPoWBlock : Z)
    (netProofAt : Z -> CNetworkProof) (s : CNodeBehavior) : CNodeBehavior :=
  let s := {| nodes := []; seen := seen s |} in
  if start_height <=? nLastPoWBlock then s
  else
    fold_left (fun st h => AddProof (netProofAt h) st)
              (heights_between (nLastPoWBlock + 1) start_height) s.

End AddProof.

End Behavior.

(* ================================================================== *)
(** * chainparams.cpp: the registry of quorum types *)
(* ================================================================== *)

Module ChainParams.

Section LLMQ.

(** [Consensus::LLMQParams], its [type] member (an 8-bit enum) and the
    table [Consensus::available_llmqs] are declared outside these files. *)
Variable LLMQParams : Type.
Variable llmq_type : LLMQParams -> Z.
Variable available_llmqs : list LLMQParams.

(** [HasLLMQ], over [consensus.llmqs]. *)
Fixpoint HasLLMQ (llmqType : Z) (llmqs : list LLMQParams) : bool :=
  match llmqs with
  | [] => false
  | llmq_param :: rest =>
    if llmq_type llmq_param =? llmqType then true else HasLLMQ llmqType rest
  end.

(** [GetLLMQ]; [None] stands for reaching [assert(false)]. *)
Fixpoint GetLLMQ (llmqType : Z) (llmqs : list LLMQParams) : option LLMQParams :=
  match llmqs with
  | [] => None
  | llmq_param :: rest =>
    if llmq_type llmq_param =? llmqType then Some llmq_param
    else GetLLMQ llmqType rest
  end.

(** The loop of [AddLLMQ] over [available_llmqs]. *)
Fixpoint AddLLMQ_from (llmqType : Z) (available llmqs : list LLMQParams)
    : option (list LLMQParams) :=
  match available with
  | [] => None
  | llmq_param :: rest =>
    if llmq_type llmq_param =? llmqType then Some (llmqs ++ [llmq_param])
    else AddLLMQ_from llmqType rest llmqs
  end.

(** [AddLLMQ]; [None] stands for a failed [assert]. *)
Definition AddLLMQ (llmqType : Z) (llmqs : list LLMQParams)
    : option (list LLMQParams) :=
  if HasLLMQ llmqType llmqs then None
  else AddLLMQ_from llmqType available_llmqs llmqs.

End LLMQ.

End ChainParams.

(* ================================================================== *)
(** * Vocabulary for the statements about the wallet *)
(* ================================================================== *)

Module WalletView.

Import Wallet.

(** An output as the funding loops meet it: the hash of its transaction,
    its index, and the output. *)
Definition Candidate : Type := uint256 * (nat * CTxOut).

Definition cand_outpoint (c : Candidate) : COutPoint :=
  mkOutPoint (fst c) (Z.of_nat (fst (snd c))).
Definition cand_out (c : Candidate) : CTxOut := snd (snd c).
Definition cand_input (c : Candidate) : CTxIn := CTxIn_of (cand_outpoint c).

Definition outputs_of (t : CTransaction) : list Candidate :=
  map (pair (GetHash t)) (enumerate (vout t)).

(** The outputs in the order [FundMintTransaction] enumerates them. *)
Definition mint_candidates (w : CWallet) : list Candidate :=
  flat_map (fun wtx => outputs_of (tx wtx)) (GetSpendableTXs w).

(** The outputs in the order [FundTokenTransaction] enumerates them. *)
Definition token_candidates (w : CWallet) : list Candidate :=
  flat_map (fun e => outputs_of (tx (snd e))) (mapWallet w).

(** More than TOKEN_MINCONFS confirmations. *)
Definition deep_enough (w : CWallet) (c : Candidate) : bool :=
  negb (GetUTXOConfirmations w (cand_outpoint c) <? TOKEN_MINCONFS + 1).

Section Filters.
Context `{ScriptOps}.
Variable w : CWallet.

(** The filters of [FundMintTransaction] other than the confirmations. *)
Definition mint_other_filters (c : Candidate) : bool :=
  negb (IsInMempool w (fst c))
  && IsOutputUnspent w (cand_outpoint c)
  && IsMine w (cand_out c)
  && negb (IsOutputInMempool w (cand_outpoint c))
  && negb (IsPayToToken (scriptPubKey (cand_out c)))
  && negb (IsChecksumData (scriptPubKey (cand_out c))).

Definition mint_eligible (c : Candidate) : bool :=
  mint_other_filters c && deep_enough w c.

(** The script of the output decodes to a token named [tokenname]. *)
Definition decodes_to (tokenname : string) (c : Candidate) : bool :=
  match BuildTokenFromScript (scriptPubKey (cand_out c)) with
  | Some token => String.eqb tokenname (getName token)
  | None => false
  end.

(** The filters of [FundTokenTransaction] other than the confirmations. *)
Definition token_other_filters (tokenname : string) (c : Candidate) : bool :=
  IsTokenOutput (cand_out c)
  && negb (IsInMempool w (fst c))
  && IsOutputUnspent w (cand_outpoint c)
  && IsMine w (cand_out c)
  && negb (IsOutputInMempool w (cand_outpoint c))
  && negb (IsChecksumData (scriptPubKey (cand_out c)))
  && decodes_to tokenname c.

Definition token_eligible (tokenname : string) (c : Candidate) : bool :=
  token_other_filters tokenname c && deep_enough w c.

(** The outputs [GetUnconfirmedTokenBalance] looks at, in the order it
    visits them. *)
Definition visited_outputs (pool : list CTransaction) : list CTxOut :=
  flat_map (fun mtx => if HasTokenOutput mtx then vout mtx else []) pool.

(** Those of them that carry a pay-to-token script. *)
Definition visited_token_outputs (pool : list CTransaction) : list CTxOut :=
  List.filter (fun o => IsPayToToken (scriptPubKey o)) (visited_outputs pool).

(** Those the wallet owns as well: the ones it validates. *)
Definition owned_token_outputs (pool : list CTransaction) : list CTxOut :=
  List.filter (fun o => IsPayToToken (scriptPubKey o) && IsMine w o)
    (visited_outputs pool).

Definition check_ok (o : CTxOut) : bool :=
  fst (fst (ContextualCheckToken (scriptPubKey o) CToken_default)).

Definition checked_name (o : CTxOut) : string :=
  getName (snd (fst (ContextualCheckToken (scriptPubKey o) CToken_default))).

Definition credit_output (balances : gmap string CAmount) (o : CTxOut)
    : gmap string CAmount :=
  credit balances (checked_name o) (nValue o).

(** The body of the balance loop on an output that is a wallet-owned
    token output. *)
Definition check_visit (o : CTxOut) (st : gmap string CAmount * string)
    : flow (gmap string CAmount * string) :=
  if negb (check_ok o) then
    Done (fst st, "corrupt-invalid-existing-mempool"%string)
  else
    Next (credit_output (fst st) o,
          default (snd st)
            (snd (ContextualCheckToken (scriptPubKey o) CToken_default))).

End Filters.

(** The running total the funding loops keep, started from zero. *)
Definition accumulated (l : list Candidate) : CAmount :=
  fold_left (fun a c => amount_add a (nValue (cand_out c))) l 0.

(** What a call pushed onto the caller's [ret]. *)
Definition appended (ret0 ret : list CTxIn) : list CTxIn :=
  drop (length ret0) ret.

(** The running total from an arbitrary start. *)
Definition accumulated_from (a0 : CAmount) (l : list Candidate) : CAmount :=
  fold_left (fun a c => amount_add a (nValue (cand_out c))) l a0.

(** The sum of the values of a list of outputs, without wrap-around. *)
Definition total_value (l : list Candidate) : Z :=
  fold_right (fun c t => nValue (cand_out c) + t) 0 l.

(** How both funding functions turn the outcome of their loops into
    their result: [return true] from inside, [return false] after. *)
Definition funding_result (f : flow FundState) : bool * CAmount * list CTxIn :=
  match f with
  | Done (found, r) => (true, found, r)
  | Next (found, r) => (false, found, r)
  end.

Definition balance_result (f : flow (gmap string CAmount * string))
    : bool * gmap string CAmount * string :=
  match f with
  | Done (b, e) => (false, b, e)
  | Next (b, e) => (true, b, e)
  end.

(** The loop body common to both funding functions once an output has
    passed the filters. *)
Definition take_visit (amountMin : CAmount) (c : Candidate) (st : FundState)
    : flow FundState :=
  let amountFound := amount_add (fst st) (nValue (cand_out c)) in
  let ret := snd st ++ [cand_input c] in
  if amountMin <=? amountFound then Done (amountFound, ret)
  else Next (amountFound, ret).

End WalletView.

(* ================================================================== *)
(** * Vocabulary for the statements about the signer *)
(* ================================================================== *)

Module SignerView.

Import Wallet.

(** What the combined chain-plus-mempool view answers for an outpoint:
    its coin, or [coinEmpty] when it has none. *)
Definition coin_of (viewAll : COutPoint -> option Coin) (o : COutPoint) : Coin :=
  match viewAll o with
  | Some c => c
  | None => coinEmpty
  end.

(** The previous output of the input is missing from the view or spent. *)
Definition unavailable (viewAll : COutPoint -> option Coin) (txin : CTxIn) : bool :=
  IsSpent (coin_of viewAll (prevout txin)).

(** Index of the first input whose previous output is missing or spent
    (the number of inputs when there is none). *)
Fixpoint first_unavailable (viewAll : COutPoint -> option Coin)
    (inputs : list CTxIn) : nat :=
  match inputs with
  | [] => 0
  | txin :: rest =>
    if unavailable viewAll txin then 0
    else S (first_unavailable viewAll rest)
  end.

(** What the signing loop reads from its cache. *)
Definition cached (view : CoinsCache) (o : COutPoint) : Coin :=
  fst (AccessCoin viewDummy view o).

Definition prevouts (rawTx : CMutableTransaction) : list COutPoint :=
  map prevout (mvin rawTx).

(** The state a loop was in when it stopped or ran out. *)
Definition flow_state {S : Type} (f : flow S) : S :=
  match f with
  | Next s => s
  | Done s => s
  end.

(** Every cached coin is the backend's coin for that outpoint. *)
Definition cache_sound (backend : COutPoint -> option Coin)
    (cache : CoinsCache) : Prop :=
  forall (o : COutPoint) (c : Coin),
    cache !! outpoint_key o = Some c -> backend o = Some c.

Section Signed.

Context `{SigningEngine}.

(** The coin the signing loop reads for input [i]. *)
Definition input_coin (view : CoinsCache) (rawTx : CMutableTransaction)
    (i : nat) : Coin :=
  cached view (prevout (nth i (mvin rawTx) (CTxIn_of (mkOutPoint 0 0)))).

(** The transaction once the loop body has produced and merged the
    signature of input [i]. *)
Definition signed_at (view : CoinsCache) (rawTx : CMutableTransaction)
    (i : nat) : CMutableTransaction :=
  let coin := input_coin view rawTx i in
  let prevPubKey := scriptPubKey (out coin) in
  let amount := nValue (out coin) in
  let fHashSingle :=
    Z.land SIGHASH_ALL (Z.lnot SIGHASH_ANYONECANPAY) =? SIGHASH_SINGLE in
  let rawTx1 :=
    if negb fHashSingle || (i <? length (mvout rawTx))%nat
    then set_scriptSig rawTx i
           (SignSignature prevPubKey rawTx i amount SIGHASH_ALL)
    else rawTx in
  set_scriptSig rawTx1 i
    (MergeSignature prevPubKey rawTx1 i (out coin) amount SIGHASH_ALL).

(** What the verifier answers for input [i] once it is signed. *)
Definition verified_at (view : CoinsCache) (rawTx : CMutableTransaction)
    (i : nat) : bool * ScriptError :=
  let coin := input_coin view rawTx i in
  let signed := signed_at view rawTx i in
  VerifyScript (scriptSig (nth i (mvin signed) (CTxIn_of (mkOutPoint 0 0))))
               (scriptPubKey (out coin)) signed i (nValue (out coin)).

(** The verifier accepts every input of [idxs], each one on the
    transaction as signed up to and including that input. *)
Fixpoint verifies_all (view : CoinsCache) (idxs : list nat)
    (rawTx : CMutableTransaction) : bool :=
  match idxs with
  | [] => true
  | i :: rest =>
    fst (verified_at view rawTx i)
    && verifies_all view rest (signed_at view rawTx i)
  end.

(** The transaction with the inputs of [idxs] signed in turn. *)
Definition signed_all (view : CoinsCache) (idxs : list nat)
    (rawTx : CMutableTransaction) : CMutableTransaction :=
  fold_left (signed_at view) idxs rawTx.

End Signed.

End SignerView.

(* ================================================================== *)
(** * Vocabulary for the statements about the score keeper *)
(* ================================================================== *)

Module BehaviorView.

Import Behavior.

(** Every stored health is within [0, 100]. *)
Definition healthy (ns : list NodeHistory) : Prop :=
  Forall (fun l => 0 <= health l <= 100) ns.

Definition healthyb (ns : list NodeHistory) : bool :=
  forallb (fun l => (0 <=? health l) && (health l <=? 100)) ns.

End BehaviorView.

(* ================================================================== *)
(** * Concrete wallets, pools and transactions *)
(* ================================================================== *)

Module Scenario.

Import Wallet WalletView.

(** A choice of tag bytes for the scenarios. *)
Definition OP_TOKEN : byte := xc0.
Definition OP_CHECKSUM : byte := xc1.

(** The script operations of the wallet read off the codec above. *)
Definition codec_ops : ScriptOps :=
  {| IsPayToToken := Codec.IsPayToToken_tag OP_TOKEN;
     IsChecksumData := Codec.starts_with OP_CHECKSUM;
     IsTokenOutput := fun o => Codec.IsPayToToken_tag OP_TOKEN (scriptPubKey o);
     HasTokenOutput :=
       fun t => existsb (fun o => Codec.IsPayToToken_tag OP_TOKEN (scriptPubKey o))
                        (vout t);
     BuildTokenFromScript := Codec.BuildTokenFromScript_codec OP_TOKEN;
     ContextualCheckToken := Codec.ContextualCheckToken_codec OP_TOKEN |}.

(** A pay-to-pubkey-hash style owner script. *)
Definition owner_script : CScript := [x76; xa9; x14; x88; xac].

Definition gold_issuance_script : CScript :=
  Codec.BuildTokenScript OP_TOKEN 1 ISSUANCE 42 "GOLD" owner_script.
Definition gold_transfer_script : CScript :=
  Codec.BuildTokenScript OP_TOKEN 1 TRANSFER 42 "GOLD" owner_script.
Definition silver_transfer_script : CScript :=
  Codec.BuildTokenScript OP_TOKEN 1 TRANSFER 43 "SILVER" owner_script.

(** Tagged as a token script, with nothing behind the tag. *)
Definition truncated_token_script : CScript := [OP_TOKEN].

Definition gold_issuance : CTxOut := mkTxOut 100 gold_issuance_script.
Definition gold_transfer : CTxOut := mkTxOut 100 gold_transfer_script.
Definition broken_token : CTxOut := mkTxOut 7 truncated_token_script.

(** A mempool: an issuance of GOLD, then a transfer of it. *)
Definition pool_issue_transfer : list CTransaction :=
  [ mkTx 11 [] [gold_issuance];
    mkTx 12 [CTxIn_of (mkOutPoint 11 0)] [gold_transfer] ].

(** A mempool whose second token output does not validate. *)
Definition pool_with_broken : list CTransaction :=
  [ mkTx 11 [] [gold_issuance];
    mkTx 13 [] [broken_token] ].

(** A wallet with two plain outputs (one and two confirmations) and two
    token outputs; it owns every output it is asked about. *)
Definition plain_tx : CTransaction :=
  mkTx 7 [] [mkTxOut 50 owner_script; mkTxOut 70 owner_script].
Definition token_tx : CTransaction :=
  mkTx 8 [] [broken_token; mkTxOut 5 gold_transfer_script;
             mkTxOut 9 silver_transfer_script].

Definition wallet_all_mine : CWallet :=
  {| mapWallet := [(7, mkWalletTx plain_tx); (8, mkWalletTx token_tx)];
     GetSpendableTXs := [mkWalletTx plain_tx; mkWalletTx token_tx];
     IsInMempool := fun _ => false;
     IsOutputUnspent := fun _ => true;
     IsMine := fun _ => true;
     GetUTXOConfirmations :=
       fun o => if (hash o =? 7) && (n o =? 0) then 1 else 2;
     IsOutputInMempool := fun _ => false |}.

(** The same wallet, owning no issuance output. *)
Definition wallet_transfers_only : CWallet :=
  {| mapWallet := mapWallet wallet_all_mine;
     GetSpendableTXs := GetSpendableTXs wallet_all_mine;
     IsInMempool := fun _ => false;
     IsOutputUnspent := fun _ => true;
     IsMine :=
       fun o =>
         match Codec.BuildTokenFromScript_codec OP_TOKEN (scriptPubKey o) with
         | Some t => negb (isIssuance t)
         | None => true
         end;
     GetUTXOConfirmations := GetUTXOConfirmations wallet_all_mine;
     IsOutputInMempool := fun _ => false |}.

(** The coin views of the signing scenarios: one unspent coin at (21, 0),
    nothing else. *)
Definition view_one_coin : COutPoint -> option Coin :=
  fun o =>
    if (hash o =? 21) && (n o =? 0)
    then Some (mkCoin (mkTxOut 10 owner_script) false)
    else None.

(** A transaction spending the coin that exists, then one that does not. *)
Definition tx_known_then_missing : CMutableTransaction :=
  {| mvin := [CTxIn_of (mkOutPoint 21 0); CTxIn_of (mkOutPoint 99 0)];
     mvout := [mkTxOut 9 owner_script] |}.

Definition SCRIPT_ERR_INVALID_STACK_OPERATION : ScriptError := 17.

Definition script_error_text (e : ScriptError) : string :=
  if e =? SCRIPT_ERR_OK then "No error"%string
  else if e =? SCRIPT_ERR_INVALID_STACK_OPERATION
       then "Operation not valid with the current stack size"%string
       else "unknown error"%string.

Definition current_scriptSig (rawTx : CMutableTransaction) (i : nat) : CScript :=
  scriptSig (nth i (mvin rawTx) (CTxIn_of (mkOutPoint 0 0))).

(** Verification as far as the scenarios need it: an empty unlocking
    script fails on the first stack operation of the locking script. *)
Definition verify_nonempty (sig : CScript) : bool * ScriptError :=
  match sig with
  | [] => (false, SCRIPT_ERR_INVALID_STACK_OPERATION)
  | _ :: _ => (true, SCRIPT_ERR_OK)
  end.

(** A keystore without the key: signing leaves the unlocking script as
    it was. *)
Definition keyless_engine : SigningEngine :=
  {| SignSignature := fun _ rawTx i _ _ => current_scriptSig rawTx i;
     MergeSignature := fun _ rawTx i _ _ _ => current_scriptSig rawTx i;
     VerifyScript := fun sig _ _ _ _ => verify_nonempty sig;
     ScriptErrorString := script_error_text |}.

(** A keystore with the key: signing leaves a signature. *)
Definition keyed_engine : SigningEngine :=
  {| SignSignature := fun _ _ _ _ _ => [x30; x44];
     MergeSignature := fun _ rawTx i _ _ _ => current_scriptSig rawTx i;
     VerifyScript := fun sig _ _ _ _ => verify_nonempty sig;
     ScriptErrorString := script_error_text |}.

(** Two stored storage nodes, and a record for the second one. *)
Definition node_one : Behavior.NodeHistory := Behavior.mkNode 1 10 95.
Definition node_two : Behavior.NodeHistory := Behavior.mkNode 2 20 3.
Definition node_two_update : Behavior.NodeHistory := Behavior.mkNode 2 20 80.
Definition node_zero_update : Behavior.NodeHistory := Behavior.mkNode 0 20 80.

Definition two_nodes : Behavior.CNodeBehavior :=
  Behavior.mkBehavior [node_one; node_two] [].

(** A proof at height 5 that names the first node as serving. *)
Definition proof_for_node_one : Behavior.CNetworkProof :=
  Behavior.mkProof 5 [StorageNode.mk 1 10 1 1 1].

(** The wallet of the scenarios before any of its outputs is confirmed
    deeply enough. *)
Definition wallet_shallow : CWallet :=
  {| mapWallet := mapWallet wallet_all_mine;
     GetSpendableTXs := GetSpendableTXs wallet_all_mine;
     IsInMempool := fun _ => false;
     IsOutputUnspent := fun _ => true;
     IsMine := fun _ => true;
     GetUTXOConfirmations := fun _ => 1;
     IsOutputInMempool := fun _ => false |}.

(** A wallet whose plain outputs are all deep enough. *)
Definition wallet_deep : CWallet :=
  {| mapWallet := mapWallet wallet_all_mine;
     GetSpendableTXs := GetSpendableTXs wallet_all_mine;
     IsInMempool := fun _ => false;
     IsOutputUnspent := fun _ => true;
     IsMine := fun _ => true;
     GetUTXOConfirmations := fun _ => 6;
     IsOutputInMempool := fun _ => false |}.

(** A transaction spending only the coin that exists. *)
Definition tx_known_only : CMutableTransaction :=
  {| mvin := [CTxIn_of (mkOutPoint 21 0)];
     mvout := [mkTxOut 9 owner_script] |}.

(** A view with a second unspent coin at (22, 1), and a transaction
    spending both coins. *)
Definition view_two_coins : COutPoint -> option Coin :=
  fun o =>
    if (hash o =? 21) && (n o =? 0)
    then Some (mkCoin (mkTxOut 10 owner_script) false)
    else if (hash o =? 22) && (n o =? 1)
         then Some (mkCoin (mkTxOut 4 owner_script) false)
         else None.

Definition tx_two_known : CMutableTransaction :=
  {| mvin := [CTxIn_of (mkOutPoint 21 0); CTxIn_of (mkOutPoint 22 1)];
     mvout := [mkTxOut 13 owner_script] |}.

(** An engine whose verifier accepts every unlocking script. *)
Definition accepting_engine : SigningEngine :=
  {| SignSignature := fun _ _ _ _ _ => [x30; x44];
     MergeSignature := fun _ rawTx i _ _ _ => current_scriptSig rawTx i;
     VerifyScript := fun _ _ _ _ _ => (true, SCRIPT_ERR_OK);
     ScriptErrorString := script_error_text |}.

(** A proof at height 9 that names no node, and the proofs of a short
    chain. *)
Definition proof_without_nodes : Behavior.CNetworkProof := Behavior.mkProof 9 [].
Definition proof_at (h : Z) : Behavior.CNetworkProof :=
  Behavior.mkProof h [StorageNode.mk 1 10 1 1 1].

(** A pool of one transaction without token outputs. *)
Definition pool_plain : list CTransaction := [plain_tx].

(** Quorum parameters reduced to a type and a size. *)
Definition quorum_table : list (Z * Z) := [(1, 50); (2, 400); (4, 100)].

(** The wallet of [wallet_all_mine] where the first plain output has no
    confirmation yet and every other output has five. *)
Definition wallet_fresh_first : CWallet :=
  {| mapWallet := mapWallet wallet_all_mine;
     GetSpendableTXs := GetSpendableTXs wallet_all_mine;
     IsInMempool := fun _ => false;
     IsOutputUnspent := fun _ => true;
     IsMine := fun _ => true;
     GetUTXOConfirmations :=
       fun o => if (hash o =? 7) && (n o =? 0) then 0 else 5;
     IsOutputInMempool := fun _ => false |}.

Definition first_plain : Candidate := (7, (0%nat, mkTxOut 50 owner_script)).
Definition second_plain : Candidate := (7, (1%nat, mkTxOut 70 owner_script)).
Definition gold_candidate : Candidate := (8, (1%nat, mkTxOut 5 gold_transfer_script)).

End Scenario.

(* ================================================================== *)
(** * Facts about machine integers and byte strings *)
(* ================================================================== *)

Section ByteFacts.

Lemma Z_of_byte_of_Z (z : Z) : Z_of_byte (byte_of_Z z) = z mod 256.
Proof.
  unfold Z_of_byte, byte_of_Z.
  assert (Hr : 0 <= z mod 256 < 256) by (apply Z.mod_pos_bound; lia).
  destruct (Byte.of_N (Z.to_N (z mod 256))) as [b|] eqn:E.
  - apply Byte.to_of_N in E. rewrite E. lia.
  - apply Byte.of_N_None_iff in E. lia.
Qed.

Lemma le_bytes_length (width : nat) (z : Z) : length (le_bytes width z) = width.
Proof.
  revert z. induction width as [|w IH]; intros z; simpl; [reflexivity|].
  now rewrite IH.
Qed.

Lemma le_value_le_bytes (width : nat) (z : Z) :
  le_value (le_bytes width z) = z mod 256 ^ Z.of_nat width.
Proof.
  revert z. induction width as [|w IH]; intros z.
  - simpl. now rewrite Z.mod_1_r.
  - cbn [le_bytes le_value]. rewrite IH, Z_of_byte_of_Z.
    rewrite Nat2Z.inj_succ, Z.pow_succ_r by lia.
    rewrite Z.rem_mul_r by lia. reflexivity.
Qed.

Lemma le_value_le_bytes_small (width : nat) (z : Z) :
  0 <= z < 256 ^ Z.of_nat width -> le_value (le_bytes width z) = z.
Proof. intros Hz. rewrite le_value_le_bytes. now apply Z.mod_small. Qed.

Lemma list_byte_of_string_length (s : string) :
  length (list_byte_of_string s) = String.length s.
Proof.
  unfold list_byte_of_string. rewrite length_map.
  induction s as [|c s IH]; simpl; [reflexivity | now rewrite IH].
Qed.

Lemma take_bytes_app (k : nat) (front back : CScript) :
  length front = k -> Codec.take_bytes k (front ++ back) = Some (front, back).
Proof.
  intros Hk. unfold Codec.take_bytes.
  rewrite length_app, Hk.
  destruct (Nat.leb_spec k (k + length back)) as [_|Hlt]; [|lia].
  subst k. now rewrite take_app_length, drop_app_length.
Qed.

Lemma wrap_signed_small (bits z : Z) :
  0 < bits -> - 2 ^ (bits - 1) <= z < 2 ^ (bits - 1) -> wrap_signed bits z = z.
Proof.
  intros Hb Hz. unfold wrap_signed.
  assert (Hp : 2 ^ bits = 2 * 2 ^ (bits - 1)).
  { replace bits with (Z.succ (bits - 1)) at 1 by lia.
    rewrite Z.pow_succ_r by lia. reflexivity. }
  rewrite Z.mod_small by lia. lia.
Qed.

End ByteFacts.

(* ================================================================== *)
(** * The token record and the script codec *)
(* ================================================================== *)

Section TokenFacts.

(** C8.  [operator==] on two token records answers true exactly when
    their uids are equal and their names are equal; changing the version,
    the type or the origin transaction of either side never changes the
    answer. *)
Theorem token_eq_uid_name_only :
  (forall a b : CToken,
      token_eq a b = true <-> uid a = uid b /\ name a = name b)
  /\ (forall (a b : CToken) (va vb ta tb oa ob : Z),
         token_eq (setVersion va (setType ta (setOriginTx oa a)))
                  (setVersion vb (setType tb (setOriginTx ob b)))
         = token_eq a b).
Proof.
  split.
  - intros a b. unfold token_eq, getId, getName.
    rewrite andb_true_iff, Z.eqb_eq, String.eqb_eq. reflexivity.
  - intros a b va vb ta tb oa ob. reflexivity.
Qed.

Variable OP_TOKEN : byte.

(** C4.  Decoding the script built from a version, a type, a uid and a
    name, each within the range of its field and the name between
    TOKENNAME_MINLEN and TOKENNAME_MAXLEN bytes long, gives back exactly
    those fields (and the owner part that was appended). *)
Theorem decode_build_token_script
    (version type uid : Z) (name : string) (ownerScript : CScript) :
  0 <= version < 2 ^ 8 ->
  0 <= type < 2 ^ 16 ->
  0 <= uid < 2 ^ 64 ->
  TOKENNAME_MINLEN <= Z.of_nat (String.length name) <= TOKENNAME_MAXLEN ->
  Codec.DecodeTokenScript OP_TOKEN
    (Codec.BuildTokenScript OP_TOKEN version type uid name ownerScript)
  = Codec.DecodedToken version type uid name ownerScript.
Proof.
  intros Hv Ht Hu Hn.
  unfold TOKENNAME_MINLEN, TOKENNAME_MAXLEN in Hn.
  unfold Codec.BuildTokenScript, Codec.DecodeTokenScript.
  rewrite (byte_dec_lb (eq_refl OP_TOKEN)).
  rewrite (take_bytes_app 1) by apply le_bytes_length.
  rewrite (take_bytes_app 2) by apply le_bytes_length.
  rewrite (take_bytes_app 8) by apply le_bytes_length.
  rewrite Z_of_byte_of_Z, Z.mod_small by lia.
  rewrite Nat2Z.id.
  rewrite take_bytes_app by apply list_byte_of_string_length.
  rewrite !le_value_le_bytes_small by (simpl Z.of_nat; lia).
  now rewrite string_of_list_byte_of_string.
Qed.

End TokenFacts.

Lemma decode_build_token_script_gold :
  Codec.DecodeTokenScript xc0
    (Codec.BuildTokenScript xc0 1 ISSUANCE 42 "GOLD" [x76; xa9])
  = Codec.DecodedToken 1 ISSUANCE 42 "GOLD" [x76; xa9].
Proof.
  apply (decode_build_token_script xc0 1 ISSUANCE 42 "GOLD" [x76; xa9]);
    unfold ISSUANCE, TOKENNAME_MINLEN, TOKENNAME_MAXLEN; simpl; lia.
Defined.

(* ================================================================== *)
(** * Loops *)
(* ================================================================== *)

Section LoopFacts.

Context {A S : Type}.

Lemma for_each_app (body : A -> S -> flow S) (l1 l2 : list A) (s : S) :
  for_each body (l1 ++ l2) s =
  match for_each body l1 s with
  | Next s' => for_each body l2 s'
  | Done s' => Done s'
  end.
Proof.
  revert s. induction l1 as [|x l1 IH]; intros s; simpl; [reflexivity|].
  destruct (body x s); [apply IH | reflexivity].
Qed.

Lemma for_each_ext (body body' : A -> S -> flow S) (l : list A) (s : S) :
  (forall x st, body x st = body' x st) ->
  for_each body l s = for_each body' l s.
Proof.
  intros Hext. revert s. induction l as [|x l IH]; intros s; simpl; [reflexivity|].
  rewrite Hext. destruct (body' x s); [apply IH | reflexivity].
Qed.

(** A body that passes over the elements a test rejects is the body run
    on the elements the test keeps. *)
Lemma for_each_filter (keep : A -> bool) (body : A -> S -> flow S)
    (l : list A) (s : S) :
  for_each (fun x st => if keep x then body x st else Next st) l s =
  for_each body (List.filter keep l) s.
Proof.
  revert s. induction l as [|x l IH]; intros s; simpl; [reflexivity|].
  destruct (keep x); simpl.
  - destruct (body x s); [apply IH | reflexivity].
  - apply IH.
Qed.

End LoopFacts.

Section NestedLoops.

Context {A B K S : Type}.

(** Two nested loops are one loop over the flattened elements. *)
Lemma for_each_nested (key : B -> K) (inner : B -> list A)
    (body : K -> A -> S -> flow S) (l : list B) (s : S) :
  for_each (fun x st => for_each (body (key x)) (inner x) st) l s =
  for_each (fun p st => body (fst p) (snd p) st)
           (flat_map (fun x => map (pair (key x)) (inner x)) l) s.
Proof.
  revert s. induction l as [|x l IH]; intros s; [reflexivity|].
  cbn [flat_map for_each]. rewrite for_each_app.
  assert (Hin : forall (xs : list A) s0,
             for_each (body (key x)) xs s0 =
             for_each (fun p st => body (fst p) (snd p) st)
                      (map (pair (key x)) xs) s0).
  { induction xs as [|y xs IHxs]; intros s0; simpl; [reflexivity|].
    destruct (body (key x) y s0); [apply IHxs | reflexivity]. }
  rewrite <- Hin.
  destruct (for_each (body (key x)) (inner x) s); [apply IH | reflexivity].
Qed.

End NestedLoops.

(* ================================================================== *)
(** * Coin selection *)
(* ================================================================== *)

Section FundingFacts.

Import Wallet WalletView.
Context `{ScriptOps}.
Variable w : CWallet.

Lemma mint_visit_filter (amountMin : CAmount) (c : Candidate) (st : FundState) :
  mint_visit w amountMin (fst c) (snd c) st =
  if mint_eligible w c then take_visit amountMin c st else Next st.
Proof.
  destruct c as [h [idx o]].
  unfold mint_visit, mint_eligible, mint_other_filters, deep_enough, take_visit,
    cand_input, cand_outpoint, cand_out; simpl.
  destruct (IsInMempool w h); simpl; [reflexivity|].
  destruct (IsOutputUnspent w _); simpl; [|reflexivity].
  destruct (IsMine w o); simpl; [|reflexivity].
  destruct (GetUTXOConfirmations w _ <? _); simpl.
  { now rewrite andb_false_r. }
  destruct (IsOutputInMempool w _); simpl; [reflexivity|].
  destruct (IsPayToToken _); simpl; [reflexivity|].
  destruct (IsChecksumData _); simpl; reflexivity.
Qed.

Lemma token_visit_filter (tokenname : string) (amountMin : CAmount)
    (c : Candidate) (st : FundState) :
  token_visit w tokenname amountMin (fst c) (snd c) st =
  if token_eligible w tokenname c then take_visit amountMin c st else Next st.
Proof.
  destruct c as [h [idx o]].
  unfold token_visit, token_eligible, token_other_filters, decodes_to,
    deep_enough, take_visit, cand_input, cand_outpoint, cand_out; simpl.
  destruct (IsTokenOutput o); simpl; [|reflexivity].
  destruct (IsInMempool w h); simpl; [reflexivity|].
  destruct (IsOutputUnspent w _); simpl; [|reflexivity].
  destruct (IsMine w o); simpl; [|reflexivity].
  destruct (GetUTXOConfirmations w _ <? _); simpl.
  { now rewrite andb_false_r. }
  destruct (IsOutputInMempool w _); simpl; [reflexivity|].
  destruct (IsChecksumData _); simpl; [reflexivity|].
  destruct (BuildTokenFromScript _) as [token|]; simpl; [|reflexivity].
  destruct (String.eqb tokenname (getName token)); reflexivity.
Qed.

(** [FundMintTransaction] is the common loop over the eligible outputs. *)
Lemma FundMintTransaction_unfold (amountMin : CAmount) (ret : list CTxIn) :
  FundMintTransaction w amountMin ret =
  funding_result
    (for_each (take_visit amountMin)
              (List.filter (mint_eligible w) (mint_candidates w)) (0, ret)).
Proof.
  unfold FundMintTransaction, mint_candidates, outputs_of.
  rewrite (for_each_nested (fun out => GetHash (tx out))
             (fun out => enumerate (vout (tx out)))
             (mint_visit w amountMin)).
  rewrite <- for_each_filter.
  erewrite for_each_ext; [reflexivity|].
  intros c st. apply mint_visit_filter.
Qed.

Lemma FundTokenTransaction_unfold (tokenname : string) (amountMin : CAmount)
    (ret : list CTxIn) :
  FundTokenTransaction w tokenname amountMin ret =
  funding_result
    (for_each (take_visit amountMin)
              (List.filter (token_eligible w tokenname) (token_candidates w))
              (0, ret)).
Proof.
  unfold FundTokenTransaction, token_candidates, outputs_of.
  rewrite (for_each_nested (fun e => GetHash (tx (snd e)))
             (fun e => enumerate (vout (tx (snd e))))
             (token_visit w tokenname amountMin)).
  rewrite <- for_each_filter.
  erewrite for_each_ext; [reflexivity|].
  intros c st. apply token_visit_filter.
Qed.

(** The common loop is first-fit: it stops at the first prefix whose
    running total reaches the target, and otherwise takes everything. *)
Lemma take_visit_run (amountMin : CAmount) (l : list Candidate)
    (a0 : CAmount) (r0 : list CTxIn) :
  match for_each (take_visit amountMin) l (a0, r0) with
  | Done (a, r) =>
    exists k : nat,
      (0 < k <= length l)%nat
      /\ a = accumulated_from a0 (take k l)
      /\ r = r0 ++ map cand_input (take k l)
      /\ amountMin <= a
      /\ forall j : nat, (0 < j < k)%nat ->
           accumulated_from a0 (take j l) < amountMin
  | Next (a, r) =>
    a = accumulated_from a0 l
    /\ r = r0 ++ map cand_input l
    /\ forall j : nat, (0 < j <= length l)%nat ->
         accumulated_from a0 (take j l) < amountMin
  end.
Proof.
  revert a0 r0. induction l as [|c l IH]; intros a0 r0.
  - simpl. repeat split; [now rewrite app_nil_r | intros j Hj; simpl in Hj; lia].
  - cbn [for_each]. unfold take_visit at 1. cbn [fst snd].
    destruct (Z.leb_spec amountMin (amount_add a0 (nValue (cand_out c))))
      as [Hreach|Hshort].
    + exists 1%nat. cbn [length take map accumulated_from fold_left].
      repeat split; try lia; try reflexivity.
    + specialize (IH (amount_add a0 (nValue (cand_out c))) (r0 ++ [cand_input c])).
      destruct (for_each (take_visit amountMin) l _) as [[a r]|[a r]].
      * destruct IH as (Ha & Hr & Hlow). repeat split.
        -- exact Ha.
        -- rewrite Hr, <- app_assoc. reflexivity.
        -- intros [|j] Hj; [lia|]. cbn [take accumulated_from fold_left].
           destruct j as [|j]; [exact Hshort|].
           apply (Hlow (S j)). simpl in Hj. lia.
      * destruct IH as (k & Hk & Ha & Hr & Hge & Hlow).
        exists (S k). cbn [length take map accumulated_from fold_left].
        repeat split; try lia.
        -- exact Ha.
        -- rewrite Hr, <- app_assoc. reflexivity.
        -- intros [|j] Hj; [lia|]. cbn [take accumulated_from fold_left].
           destruct j as [|j]; [exact Hshort|].
           apply (Hlow (S j)). lia.
Qed.

(** While the values are non-negative and their sum fits 64 bits, the
    running total is the sum. *)
Lemma accumulated_from_exact (l : list Candidate) (a0 : CAmount) :
  0 <= a0 ->
  Forall (fun c => 0 <= nValue (cand_out c)) l ->
  a0 + total_value l < 2 ^ 63 ->
  accumulated_from a0 l = a0 + total_value l.
Proof.
  intros Ha Hall. revert a0 Ha.
  induction Hall as [|c l Hc Hall IH]; intros a0 Ha Hfit; simpl.
  - lia.
  - assert (Hpos : 0 <= total_value l).
    { clear -Hall. induction Hall as [|x xs Hx _ IHx]; simpl; lia. }
    simpl in Hfit.
    assert (Hstep : amount_add a0 (nValue (cand_out c)) = a0 + nValue (cand_out c)).
    { unfold amount_add. apply wrap_signed_small; [lia|].
      change (2 ^ (64 - 1)) with (2 ^ 63). lia. }
    rewrite Hstep. rewrite IH; lia.
Qed.

Lemma accumulated_exact (l : list Candidate) :
  Forall (fun c => 0 <= nValue (cand_out c)) l ->
  total_value l < 2 ^ 63 ->
  accumulated l = total_value l.
Proof.
  intros Hall Hfit. unfold accumulated.
  change (fold_left _ l 0) with (accumulated_from 0 l).
  rewrite accumulated_from_exact; [lia | lia | exact Hall | lia].
Qed.

(** Whatever the outcome, the inputs pushed are a prefix of the list the
    loop ran over. *)
Lemma take_visit_appended (amountMin : CAmount) (l : list Candidate)
    (r0 : list CTxIn) :
  exists k : nat,
    appended r0 (snd (funding_result (for_each (take_visit amountMin) l (0, r0))))
    = map cand_input (take k l).
Proof.
  generalize (take_visit_run amountMin l 0 r0). unfold FundState, CAmount.
  destruct (for_each _ _ _) as [[a r]|[a r]];
    cbn [funding_result snd]; intros Hrun.
  - destruct Hrun as (_ & Hr & _). exists (length l).
    unfold appended. now rewrite Hr, drop_app_length, firstn_all.
  - destruct Hrun as (k & _ & _ & Hr & _). exists k.
    unfold appended. now rewrite Hr, drop_app_length.
Qed.

Lemma appended_from_filter (keep : Candidate -> bool) (amountMin : CAmount)
    (l : list Candidate) (r0 : list CTxIn) (i : CTxIn) :
  In i (appended r0
          (snd (funding_result
                  (for_each (take_visit amountMin) (List.filter keep l) (0, r0))))) ->
  exists c : Candidate, In c l /\ keep c = true /\ i = cand_input c.
Proof.
  destruct (take_visit_appended amountMin (List.filter keep l) r0) as [k Hk].
  rewrite Hk. intros Hi. apply in_map_iff in Hi as (c & <- & Hc).
  assert (Hc' : In c (List.filter keep l)).
  { rewrite <- (firstn_skipn k (List.filter keep l)). apply in_or_app. now left. }
  apply filter_In in Hc' as [Hin Hkeep]. now exists c.
Qed.

Lemma exhausted_takes_all (keep : Candidate -> bool) (amountMin : CAmount)
    (l : list Candidate) (r0 : list CTxIn) (c : Candidate) :
  In c l -> keep c = true ->
  let res := funding_result
               (for_each (take_visit amountMin) (List.filter keep l) (0, r0)) in
  In (cand_input c) (appended r0 (snd res)) \/ fst (fst res) = true.
Proof.
  intros Hin Hkeep.
  generalize (take_visit_run amountMin (List.filter keep l) 0 r0).
  unfold FundState, CAmount.
  destruct (for_each _ _ _) as [[a r]|[a r]]; cbn [funding_result fst snd]; intros Hrun;
    [left | now right].
  destruct Hrun as (_ & Hr & _). unfold appended.
  rewrite Hr, drop_app_length. apply in_map. apply filter_In. now split.
Qed.

(** An eligible output is taken unless the eligible outputs enumerated
    before it already reached the target. *)
Lemma first_fit_includes (keep : Candidate -> bool) (amountMin : CAmount)
    (pre post : list Candidate) (r0 : list CTxIn) (c : Candidate) :
  keep c = true ->
  (forall m : nat, (0 < m <= length (List.filter keep pre))%nat ->
     accumulated (take m (List.filter keep pre)) < amountMin) ->
  In (cand_input c)
     (appended r0
        (snd (funding_result
                (for_each (take_visit amountMin)
                          (List.filter keep (pre ++ c :: post)) (0, r0))))).
Proof.
  intros Hkeep Hlow.
  rewrite List.filter_app. cbn [List.filter]. rewrite Hkeep.
  set (elpre := List.filter keep pre) in *.
  set (elpost := List.filter keep post).
  generalize (take_visit_run amountMin (elpre ++ c :: elpost) 0 r0).
  unfold FundState, CAmount.
  destruct (for_each _ _ _) as [[a r]|[a r]]; cbn [funding_result snd]; intros Hrun.
  - destruct Hrun as (_ & Hr & _). unfold appended.
    rewrite Hr, drop_app_length. apply in_map, in_or_app. right. now left.
  - destruct Hrun as (k & Hk & Ha & Hr & Hge & _). unfold appended.
    rewrite Hr, drop_app_length. apply in_map.
    destruct (Nat.le_gt_cases k (length elpre)) as [Hshort|Hlong].
    + exfalso. specialize (Hlow k (conj (proj1 Hk) Hshort)).
      rewrite take_app_le in Ha by exact Hshort.
      unfold accumulated in Hlow.
      change (fold_left _ (take k elpre) 0)
        with (accumulated_from 0 (take k elpre)) in Hlow.
      lia.
    + rewrite take_app_ge by lia.
      apply in_or_app. right.
      destruct (k - length elpre)%nat as [|j] eqn:Hj; [lia|].
      now left.
Qed.

End FundingFacts.

Section EnumerateFacts.

Import Wallet WalletView.

Lemma In_enumerate_from {A : Type} (start idx : nat) (x : A) (l : list A) :
  In (idx, x) (enumerate_from start l) ->
  exists j : nat, idx = (start + j)%nat /\ l !! j = Some x.
Proof.
  revert start. induction l as [|y l IH]; intros start; simpl; [tauto|].
  intros [Heq|Hin].
  - inversion Heq; subst. exists 0%nat. split; [lia | reflexivity].
  - destruct (IH _ Hin) as (j & -> & Hj). exists (S j). split; [lia | exact Hj].
Qed.

(** A candidate of a transaction is one of its outputs, under the hash of
    the transaction and the index of the output. *)
Lemma In_outputs_of (t : CTransaction) (c : Candidate) :
  In c (outputs_of t) ->
  fst c = GetHash t /\ vout t !! fst (snd c) = Some (cand_out c).
Proof.
  unfold outputs_of. intros Hin.
  apply in_map_iff in Hin as ([idx o] & <- & Hin).
  apply In_enumerate_from in Hin as (j & -> & Hj).
  split; [reflexivity | exact Hj].
Qed.

End EnumerateFacts.

Section FundingClaims.

Import Wallet WalletView.
Context `{ScriptOps}.
Variable w : CWallet.

(** C2.  [FundMintTransaction] is first-fit over the eligible outputs in
    enumeration order.  When it returns true, the inputs it pushed are the
    first [k >= 1] eligible outputs, [amountFound] is their accumulated
    value and is at least [amountMin], and no shorter non-empty prefix
    had reached [amountMin].  When it returns false, it pushed every
    eligible output and no non-empty prefix of them reached [amountMin].
    The threshold is tested after each accumulation. *)
Theorem FundMintTransaction_first_fit (amountMin : CAmount) (ret0 : list CTxIn) :
  let eligible := List.filter (mint_eligible w) (mint_candidates w) in
  match FundMintTransaction w amountMin ret0 with
  | (true, amountFound, ret) =>
    exists k : nat,
      (0 < k <= length eligible)%nat
      /\ ret = ret0 ++ map cand_input (take k eligible)
      /\ amountFound = accumulated (take k eligible)
      /\ amountMin <= amountFound
      /\ forall j : nat, (0 < j < k)%nat ->
           accumulated (take j eligible) < amountMin
  | (false, amountFound, ret) =>
    ret = ret0 ++ map cand_input eligible
    /\ amountFound = accumulated eligible
    /\ forall j : nat, (0 < j <= length eligible)%nat ->
         accumulated (take j eligible) < amountMin
  end.
Proof.
  intros eligible. rewrite FundMintTransaction_unfold. fold eligible.
  generalize (take_visit_run amountMin eligible 0 ret0).
  unfold FundState, CAmount.
  destruct (for_each _ _ _) as [[a r]|[a r]]; cbn [funding_result]; intros Hrun.
  - destruct Hrun as (Ha & Hr & Hlow). repeat split; assumption.
  - destruct Hrun as (k & Hk & Ha & Hr & Hge & Hlow). exists k.
    repeat split; try assumption; lia.
Qed.

(** C3.  In both funding functions strictly more than TOKEN_MINCONFS
    confirmations are required.  On an output with TOKEN_MINCONFS
    confirmations or fewer the loop body passes on with the state
    untouched, and no input pushed by either function has so few.  On an
    output with more than TOKEN_MINCONFS confirmations that passes the
    other filters the loop body accumulates its value and pushes it; such
    an output of the wallet is among the inputs pushed whenever the
    eligible outputs enumerated before it have not reached the target,
    and in any case unless the call returned true. *)
Theorem funding_confirmation_boundary (tokenname : string)
    (amountMin : CAmount) (ret0 : list CTxIn) (c : Candidate) (st : FundState) :
  (GetUTXOConfirmations w (cand_outpoint c) <= TOKEN_MINCONFS ->
     mint_visit w amountMin (fst c) (snd c) st = Next st
     /\ token_visit w tokenname amountMin (fst c) (snd c) st = Next st
     /\ ~ In (cand_input c)
            (appended ret0 (snd (FundMintTransaction w amountMin ret0)))
     /\ ~ In (cand_input c)
            (appended ret0 (snd (FundTokenTransaction w tokenname amountMin ret0))))
  /\ (TOKEN_MINCONFS < GetUTXOConfirmations w (cand_outpoint c) ->
      mint_other_filters w c = true ->
      mint_visit w amountMin (fst c) (snd c) st = take_visit amountMin c st
      /\ (forall pre post : list Candidate,
            mint_candidates w = pre ++ c :: post ->
            (forall m : nat,
                (0 < m <= length (List.filter (mint_eligible w) pre))%nat ->
                accumulated (take m (List.filter (mint_eligible w) pre))
                < amountMin) ->
            In (cand_input c)
               (appended ret0 (snd (FundMintTransaction w amountMin ret0))))
      /\ (In c (mint_candidates w) ->
          In (cand_input c)
             (appended ret0 (snd (FundMintTransaction w amountMin ret0)))
          \/ fst (fst (FundMintTransaction w amountMin ret0)) = true))
  /\ (TOKEN_MINCONFS < GetUTXOConfirmations w (cand_outpoint c) ->
      token_other_filters w tokenname c = true ->
      token_visit w tokenname amountMin (fst c) (snd c) st
      = take_visit amountMin c st
      /\ (forall pre post : list Candidate,
            token_candidates w = pre ++ c :: post ->
            (forall m : nat,
                (0 < m <= length (List.filter (token_eligible w tokenname) pre))%nat ->
                accumulated (take m (List.filter (token_eligible w tokenname) pre))
                < amountMin) ->
            In (cand_input c)
               (appended ret0
                  (snd (FundTokenTransaction w tokenname amountMin ret0))))
      /\ (In c (token_candidates w) ->
          In (cand_input c)
             (appended ret0
                (snd (FundTokenTransaction w tokenname amountMin ret0)))
          \/ fst (fst (FundTokenTransaction w tokenname amountMin ret0)) = true)).
Proof.
  assert (Hshallow : GetUTXOConfirmations w (cand_outpoint c) <= TOKEN_MINCONFS ->
                     deep_enough w c = false).
  { intros Hc. unfold deep_enough.
    apply negb_false_iff, Z.ltb_lt. lia. }
  assert (Hdeep : TOKEN_MINCONFS < GetUTXOConfirmations w (cand_outpoint c) ->
                  deep_enough w c = true).
  { intros Hc. unfold deep_enough.
    apply negb_true_iff, Z.ltb_ge. lia. }
  assert (Hsame : forall c' : Candidate,
             cand_input c = cand_input c' ->
             deep_enough w c' = deep_enough w c).
  { intros c' Heq.
    assert (Hop : cand_outpoint c = cand_outpoint c')
      by exact (f_equal prevout Heq).
    unfold deep_enough. now rewrite Hop. }
  split; [|split].
  - intros Hc. specialize (Hshallow Hc).
    rewrite mint_visit_filter, token_visit_filter.
    unfold mint_eligible, token_eligible. rewrite Hshallow, !andb_false_r.
    repeat split; try reflexivity.
    + rewrite FundMintTransaction_unfold. intros Hin.
      apply appended_from_filter in Hin as (c' & _ & Hkeep & Heq).
      unfold mint_eligible in Hkeep. apply andb_true_iff in Hkeep as [_ Hd].
      rewrite (Hsame c' Heq) in Hd. congruence.
    + rewrite FundTokenTransaction_unfold. intros Hin.
      apply appended_from_filter in Hin as (c' & _ & Hkeep & Heq).
      unfold token_eligible in Hkeep. apply andb_true_iff in Hkeep as [_ Hd].
      rewrite (Hsame c' Heq) in Hd. congruence.
  - intros Hc Hother. specialize (Hdeep Hc).
    assert (Hel : mint_eligible w c = true).
    { unfold mint_eligible. now rewrite Hother, Hdeep. }
    split; [|split].
    + now rewrite mint_visit_filter, Hel.
    + intros pre post Hsplit Hlow. rewrite FundMintTransaction_unfold, Hsplit.
      now apply first_fit_includes.
    + intros Hin. rewrite FundMintTransaction_unfold.
      now apply exhausted_takes_all.
  - intros Hc Hother. specialize (Hdeep Hc).
    assert (Hel : token_eligible w tokenname c = true).
    { unfold token_eligible. now rewrite Hother, Hdeep. }
    split; [|split].
    + now rewrite token_visit_filter, Hel.
    + intros pre post Hsplit Hlow. rewrite FundTokenTransaction_unfold, Hsplit.
      now apply first_fit_includes.
    + intros Hin. rewrite FundTokenTransaction_unfold.
      now apply exhausted_takes_all.
Qed.

(** C6.  Every input pushed by [FundTokenTransaction] points at an output
    of a wallet transaction whose script [BuildTokenFromScript] decodes
    to a token carrying the requested name; and on an output whose script
    does not decode the loop body goes on to the next output with
    [amountFound] and [ret] untouched: nothing is returned and no error
    is raised. *)
Theorem FundTokenTransaction_name_and_skip (tokenname : string)
    (amountMin : CAmount) (ret0 : list CTxIn) :
  (forall i : CTxIn,
      In i (appended ret0 (snd (FundTokenTransaction w tokenname amountMin ret0))) ->
      exists (e : uint256 * CWalletTx) (idx : nat) (o : CTxOut) (token : CToken),
        In e (mapWallet w)
        /\ vout (tx (snd e)) !! idx = Some o
        /\ i = CTxIn_of (mkOutPoint (GetHash (tx (snd e))) (Z.of_nat idx))
        /\ BuildTokenFromScript (scriptPubKey o) = Some token
        /\ getName token = tokenname)
  /\ (forall (txHash : uint256) (idx : nat) (o : CTxOut) (st : FundState)
             (rest : list (nat * CTxOut)),
         BuildTokenFromScript (scriptPubKey o) = None ->
         token_visit w tokenname amountMin txHash (idx, o) st = Next st
         /\ for_each (token_visit w tokenname amountMin txHash)
                     ((idx, o) :: rest) st
            = for_each (token_visit w tokenname amountMin txHash) rest st).
Proof.
  split.
  - intros i Hin. rewrite FundTokenTransaction_unfold in Hin.
    apply appended_from_filter in Hin as (c & Hc & Hkeep & ->).
    unfold token_candidates in Hc.
    apply in_flat_map in Hc as (e & He & Hc).
    apply In_outputs_of in Hc as [Hhash Hidx].
    unfold token_eligible, token_other_filters in Hkeep.
    rewrite !andb_true_iff in Hkeep.
    destruct Hkeep as [[_ Hdec] _]. unfold decodes_to in Hdec.
    destruct (BuildTokenFromScript (scriptPubKey (cand_out c))) as [token|] eqn:Hb;
      [|discriminate].
    apply String.eqb_eq in Hdec.
    exists e, (fst (snd c)), (cand_out c), token.
    repeat split; try assumption; try congruence.
    unfold cand_input, cand_outpoint. now rewrite Hhash.
  - intros txHash idx o st rest Hnone.
    assert (Hskip : token_visit w tokenname amountMin txHash (idx, o) st = Next st).
    { rewrite (token_visit_filter w tokenname amountMin (txHash, (idx, o))).
      unfold token_eligible, token_other_filters, decodes_to, cand_out; simpl.
      rewrite Hnone. now rewrite !andb_false_r. }
    split; [exact Hskip|]. cbn [for_each]. now rewrite Hskip.
Qed.

End FundingClaims.

(* ================================================================== *)
(** * Unconfirmed token balances *)
(* ================================================================== *)

Section BalanceFacts.

Import Wallet WalletView.
Context `{ScriptOps}.
Variable w : CWallet.

Lemma for_each_flat_map {A B S : Type} (inner : B -> list A)
    (body : A -> S -> flow S) (l : list B) (s : S) :
  for_each (fun x st => for_each body (inner x) st) l s =
  for_each body (flat_map inner l) s.
Proof.
  revert s. induction l as [|x l IH]; intros s; [reflexivity|].
  cbn [flat_map for_each]. rewrite for_each_app.
  destruct (for_each body (inner x) s); [apply IH | reflexivity].
Qed.

Lemma balance_visit_filter (o : CTxOut) (st : gmap string CAmount * string) :
  balance_visit w o st =
  if IsPayToToken (scriptPubKey o) && IsMine w o then check_visit o st
  else Next st.
Proof.
  unfold balance_visit, check_visit, credit_output, check_ok, checked_name.
  destruct st as [b e].
  destruct (IsPayToToken (scriptPubKey o) && IsMine w o); [|reflexivity].
  destruct (ContextualCheckToken (scriptPubKey o) CToken_default) as [[ok t] wr].
  cbn [fst snd]. destruct ok; reflexivity.
Qed.

(** [GetUnconfirmedTokenBalance] is one loop over the wallet-owned token
    outputs of the pool. *)
Lemma GetUnconfirmedTokenBalance_unfold (pool : list CTransaction)
    (balances : gmap string CAmount) (strError : string) :
  GetUnconfirmedTokenBalance w pool balances strError =
  balance_result
    (for_each check_visit (owned_token_outputs w pool) (balances, strError)).
Proof.
  unfold GetUnconfirmedTokenBalance, owned_token_outputs, visited_outputs.
  rewrite (for_each_ext _
             (fun mtx st =>
                for_each (balance_visit w)
                         (if HasTokenOutput mtx then vout mtx else []) st))
    by (intros mtx st; destruct (HasTokenOutput mtx); reflexivity).
  rewrite (for_each_flat_map
             (fun mtx => if HasTokenOutput mtx then vout mtx else [])).
  rewrite (for_each_ext (balance_visit w)
             (fun o st =>
                if IsPayToToken (scriptPubKey o) && IsMine w o
                then check_visit o st else Next st))
    by apply balance_visit_filter.
  rewrite for_each_filter. reflexivity.
Qed.

(** The loop credits the outputs in order, up to the first that fails
    validation. *)
Lemma check_visit_run (l : list CTxOut) (b : gmap string CAmount) (e : string) :
  match for_each check_visit l (b, e) with
  | Next (b', e') =>
    Forall (fun o => check_ok o = true) l
    /\ b' = fold_left credit_output l b
  | Done (b', e') =>
    exists (pre : list CTxOut) (bad : CTxOut) (post : list CTxOut),
      l = pre ++ bad :: post
      /\ Forall (fun o => check_ok o = true) pre
      /\ check_ok bad = false
      /\ b' = fold_left credit_output pre b
      /\ e' = "corrupt-invalid-existing-mempool"%string
  end.
Proof.
  revert b e. induction l as [|o l IH]; intros b e.
  - simpl. split; [constructor | reflexivity].
  - cbn [for_each]. unfold check_visit at 1. cbn [fst snd].
    destruct (check_ok o) eqn:Hok; cbn [negb].
    + specialize (IH (credit_output b o)
                    (default e (snd (ContextualCheckToken (scriptPubKey o)
                                                          CToken_default)))).
      destruct (for_each check_visit l _) as [[b' e']|[b' e']].
      * destruct IH as [Hall Hb]. split; [now constructor | exact Hb].
      * destruct IH as (pre & bad & post & -> & Hall & Hbad & Hb & He).
        exists (o :: pre), bad, post.
        repeat split; try assumption; try reflexivity. now constructor.
    + exists [], o, l. repeat split; try assumption; try reflexivity.
      constructor.
Qed.

End BalanceFacts.

Section BalanceClaims.

Import Wallet WalletView.
Context `{ScriptOps}.
Variable w : CWallet.

Lemma owned_of_visited (pool : list CTransaction) :
  owned_token_outputs w pool =
  List.filter (IsMine w) (visited_token_outputs pool).
Proof.
  unfold owned_token_outputs, visited_token_outputs.
  induction (visited_outputs pool) as [|o l IH]; [reflexivity|].
  simpl. destruct (IsPayToToken (scriptPubKey o)); simpl.
  - destruct (IsMine w o); simpl; now rewrite IH.
  - exact IH.
Qed.

(** C1, as the code has it.  When [GetUnconfirmedTokenBalance] returns
    false, [strError] is "corrupt-invalid-existing-mempool" and the
    caller's map is its value at entry credited with every wallet-owned
    token output that was validated before the failing one; it is the
    entry value when the failing output is the first one validated. *)
Theorem GetUnconfirmedTokenBalance_failure_keeps_credits
    (pool : list CTransaction) (balances balances' : gmap string CAmount)
    (strError strError' : string) :
  GetUnconfirmedTokenBalance w pool balances strError
    = (false, balances', strError') ->
  strError' = "corrupt-invalid-existing-mempool"%string
  /\ exists (pre : list CTxOut) (bad : CTxOut) (post : list CTxOut),
       owned_token_outputs w pool = pre ++ bad :: post
       /\ Forall (fun o => check_ok o = true) pre
       /\ check_ok bad = false
       /\ balances' = fold_left credit_output pre balances
       /\ (pre = [] -> balances' = balances).
Proof.
  rewrite GetUnconfirmedTokenBalance_unfold.
  generalize (check_visit_run (owned_token_outputs w pool) balances strError).
  destruct (for_each _ _ _) as [[b e]|[b e]]; cbn [balance_result];
    intros Hrun Heq; [discriminate|].
  injection Heq as <- <-.
  destruct Hrun as (pre & bad & post & Hl & Hall & Hbad & Hb & He).
  split; [exact He|]. exists pre, bad, post.
  repeat split; try assumption. intros ->. exact Hb.
Qed.

(** C5, as the code has it.  For a mempool whose token outputs are an
    issuance of "GOLD" worth 100 followed by a wallet-owned transfer of
    "GOLD" worth 100, the call succeeds; started from the empty map the
    balance is {"GOLD": 100} when the wallet does not own the issuance
    output, and {"GOLD": 200} when it owns it too: every wallet-owned
    token output that validates is credited, whatever its type. *)
Theorem unconfirmed_balance_issuance_then_transfer
    (pool : list CTransaction) (issuance transfer : CTxOut) (strError : string) :
  visited_token_outputs pool = [issuance; transfer] ->
  check_ok issuance = true -> checked_name issuance = "GOLD"%string ->
  nValue issuance = 100 ->
  check_ok transfer = true -> checked_name transfer = "GOLD"%string ->
  nValue transfer = 100 ->
  IsMine w transfer = true ->
  fst (GetUnconfirmedTokenBalance w pool ∅ strError)
  = (true, if IsMine w issuance
           then {[ "GOLD"%string := 200 ]}
           else {[ "GOLD"%string := 100 ]}).
Proof.
  intros Hvis Hoki Hni Hvi Hokt Hnt Hvt Hmine.
  rewrite GetUnconfirmedTokenBalance_unfold, owned_of_visited, Hvis.
  cbn [List.filter]. rewrite Hmine.
  destruct (IsMine w issuance); cbn [for_each]; unfold check_visit;
    rewrite ?Hoki, ?Hokt; cbn [negb fst snd balance_result];
    unfold credit_output; rewrite ?Hni, ?Hvi, ?Hnt, ?Hvt;
    f_equal; vm_compute; reflexivity.
Qed.

End BalanceClaims.

Section WalletScenarios.

Import Wallet WalletView Scenario.

(** C1 fails as stated: after a failed call on a pool whose first
    wallet-owned token output is valid and whose second is not, the
    caller's map, empty at entry, holds {"GOLD": 100}. *)
Lemma GetUnconfirmedTokenBalance_failure_leaks_partial_totals :
  let r := @GetUnconfirmedTokenBalance codec_ops wallet_all_mine
             pool_with_broken ∅ "No error" in
  fst (fst r) = false
  /\ snd (fst r) = {[ "GOLD"%string := 100 ]}
  /\ snd (fst r) <> ∅.
Proof.
  cbv zeta. split; [vm_compute; reflexivity|].
  split; [vm_compute; reflexivity|].
  intros Heq. apply (f_equal (fun m => m !! "GOLD"%string)) in Heq.
  vm_compute in Heq. discriminate.
Qed.

Lemma GetUnconfirmedTokenBalance_failure_keeps_credits_witness :
  @GetUnconfirmedTokenBalance codec_ops wallet_all_mine pool_with_broken
     ∅ "No error"
    = (false, {[ "GOLD"%string := 100 ]},
       "corrupt-invalid-existing-mempool"%string)
  /\ exists (pre : list CTxOut) (bad : CTxOut) (post : list CTxOut),
       @owned_token_outputs codec_ops wallet_all_mine pool_with_broken
         = pre ++ bad :: post
       /\ Forall (fun o => @check_ok codec_ops o = true) pre
       /\ @check_ok codec_ops bad = false
       /\ ({[ "GOLD"%string := 100 ]} : gmap string CAmount)
          = fold_left (@credit_output codec_ops) pre ∅
       /\ (pre = [] -> ({[ "GOLD"%string := 100 ]} : gmap string CAmount) = ∅).
Proof.
  split; [vm_compute; reflexivity|].
  apply (@GetUnconfirmedTokenBalance_failure_keeps_credits codec_ops
           wallet_all_mine pool_with_broken ∅ {[ "GOLD"%string := 100 ]}
           "No error" "corrupt-invalid-existing-mempool").
  vm_compute; reflexivity.
Defined.

(** C5 fails as stated: when the wallet owns the issuance output as well
    as the transfer output, both are credited and the balance of "GOLD"
    is 200. *)
Lemma unconfirmed_balance_counts_issuance_and_transfer :
  fst (@GetUnconfirmedTokenBalance codec_ops wallet_all_mine
         pool_issue_transfer ∅ "No error")
    = (true, {[ "GOLD"%string := 200 ]})
  /\ snd (fst (@GetUnconfirmedTokenBalance codec_ops wallet_all_mine
                 pool_issue_transfer ∅ "No error"))
     <> {[ "GOLD"%string := 100 ]}.
Proof.
  split; [vm_compute; reflexivity|].
  intros Heq. apply (f_equal (fun m => m !! "GOLD"%string)) in Heq.
  vm_compute in Heq. discriminate.
Qed.

Lemma unconfirmed_balance_issuance_then_transfer_witness :
  fst (@GetUnconfirmedTokenBalance codec_ops wallet_transfers_only
         pool_issue_transfer ∅ "No error")
    = (true, {[ "GOLD"%string := 100 ]}).
Proof.
  apply (@unconfirmed_balance_issuance_then_transfer codec_ops
           wallet_transfers_only pool_issue_transfer
           gold_issuance gold_transfer "No error");
    vm_compute; reflexivity.
Defined.

Lemma funding_confirmation_boundary_witness :
  (GetUTXOConfirmations wallet_fresh_first (cand_outpoint first_plain) = 0
   /\ @mint_visit codec_ops wallet_fresh_first 60 (fst first_plain)
        (snd first_plain) (0, [])
      = Next (0, [])
   /\ ~ In (cand_input first_plain)
          (appended []
             (snd (@FundMintTransaction codec_ops wallet_fresh_first 60 []))))
  /\ (GetUTXOConfirmations wallet_deep (cand_outpoint second_plain) = 6
      /\ @mint_visit codec_ops wallet_deep 60 (fst second_plain)
           (snd second_plain) (0, [])
         = take_visit 60 second_plain (0, [])
      /\ In (cand_input second_plain)
            (appended []
               (snd (@FundMintTransaction codec_ops wallet_deep 60 []))))
  /\ (GetUTXOConfirmations wallet_fresh_first (cand_outpoint gold_candidate) = 5
      /\ @token_visit codec_ops wallet_fresh_first "GOLD" 5 (fst gold_candidate)
           (snd gold_candidate) (0, [])
         = take_visit 5 gold_candidate (0, [])
      /\ In (cand_input gold_candidate)
            (appended []
               (snd (@FundTokenTransaction codec_ops wallet_fresh_first
                       "GOLD" 5 [])))).
Proof.
  split; [|split].
  - split; [reflexivity|].
    pose proof (proj1 (@funding_confirmation_boundary codec_ops
                         wallet_fresh_first "GOLD" 60 [] first_plain (0, [])))
      as Hlow.
    assert (Hc : GetUTXOConfirmations wallet_fresh_first
                   (cand_outpoint first_plain) <= TOKEN_MINCONFS)
      by (vm_compute; discriminate).
    destruct (Hlow Hc) as (Hvisit & _ & Hmint & _).
    split; assumption.
  - split; [reflexivity|].
    pose proof (proj1 (proj2 (@funding_confirmation_boundary codec_ops
                                wallet_deep "GOLD" 60 [] second_plain (0, []))))
      as Hhigh.
    assert (Hc : TOKEN_MINCONFS
                 < GetUTXOConfirmations wallet_deep (cand_outpoint second_plain))
      by reflexivity.
    destruct (Hhigh Hc eq_refl) as (Hvisit & Hin & _).
    split; [exact Hvisit|].
    apply (Hin [first_plain]
               (drop 2 (@mint_candidates wallet_deep))); [reflexivity|].
    intros m Hm.
    assert (Hone : m = 1%nat) by (cbv in Hm; lia).
    subst m. vm_compute. reflexivity.
  - split; [reflexivity|].
    pose proof (proj2 (proj2 (@funding_confirmation_boundary codec_ops
                                wallet_fresh_first "GOLD" 5 [] gold_candidate
                                (0, []))))
      as Hhigh.
    assert (Hc : TOKEN_MINCONFS
                 < GetUTXOConfirmations wallet_fresh_first
                     (cand_outpoint gold_candidate))
      by reflexivity.
    destruct (Hhigh Hc eq_refl) as (Hvisit & Hin & _).
    split; [exact Hvisit|].
    apply (Hin (take 3 (@token_candidates wallet_fresh_first))
               (drop 4 (@token_candidates wallet_fresh_first))); [reflexivity|].
    intros m Hm. cbv in Hm. lia.
Defined.

Lemma FundTokenTransaction_name_and_skip_witness :
  (exists (e : uint256 * CWalletTx) (idx : nat) (o : CTxOut) (token : CToken),
      In e (mapWallet wallet_all_mine)
      /\ vout (tx (snd e)) !! idx = Some o
      /\ CTxIn_of (mkOutPoint 8 1)
         = CTxIn_of (mkOutPoint (GetHash (tx (snd e))) (Z.of_nat idx))
      /\ @BuildTokenFromScript codec_ops (scriptPubKey o) = Some token
      /\ getName token = "GOLD"%string)
  /\ @token_visit codec_ops wallet_all_mine "GOLD" 5 8 (0%nat, broken_token) (0, [])
     = Next (0, []).
Proof.
  split.
  - apply (proj1 (@FundTokenTransaction_name_and_skip codec_ops
                    wallet_all_mine "GOLD" 5 [])).
    vm_compute. left. reflexivity.
  - apply (proj2 (@FundTokenTransaction_name_and_skip codec_ops
                    wallet_all_mine "GOLD" 5 [])
             8 0%nat broken_token (0, []) []).
    reflexivity.
Defined.

End WalletScenarios.

(* ================================================================== *)
(** * Signing *)
(* ================================================================== *)

Section CacheFacts.

Import Wallet SignerView.
Variable backend : COutPoint -> option Coin.

Lemma outpoint_key_inj (a b : COutPoint) :
  outpoint_key a = outpoint_key b -> a = b.
Proof.
  destruct a as [ha na], b as [hb nb]. unfold outpoint_key; simpl.
  intros Heq. injection Heq as -> ->. reflexivity.
Qed.

Lemma AccessCoin_sound (cache : CoinsCache) (o : COutPoint) :
  cache_sound backend cache ->
  cache_sound backend (snd (AccessCoin backend cache o)).
Proof.
  intros Hs. unfold AccessCoin.
  destruct (cache !! outpoint_key o) as [c|] eqn:Hc; [exact Hs|].
  destruct (backend o) as [c|] eqn:Hb; [|exact Hs].
  intros o' c'. cbn [snd]. unfold CoinsCache, uint256 in *.
  rewrite lookup_insert. case_decide as Hk.
  - apply outpoint_key_inj in Hk. subst o'. intros [= <-]. exact Hb.
  - apply Hs.
Qed.

Lemma AccessCoin_keeps (cache : CoinsCache) (o : COutPoint)
    (k : uint256 * Z) (c : Coin) :
  cache !! k = Some c -> snd (AccessCoin backend cache o) !! k = Some c.
Proof.
  intros Hk. unfold AccessCoin.
  destruct (cache !! outpoint_key o) as [c0|] eqn:Hc; [exact Hk|].
  destruct (backend o) as [c0|]; [|exact Hk].
  cbn [snd]. unfold CoinsCache, uint256 in *.
  rewrite lookup_insert_ne; [exact Hk|].
  intros <-. congruence.
Qed.

Lemma AccessCoin_loads (cache : CoinsCache) (o : COutPoint) (c : Coin) :
  cache_sound backend cache -> backend o = Some c ->
  snd (AccessCoin backend cache o) !! outpoint_key o = Some c.
Proof.
  intros Hs Hb. unfold AccessCoin.
  destruct (cache !! outpoint_key o) as [c0|] eqn:Hc.
  - cbn [snd]. apply Hs in Hc as Hc'. rewrite Hc. congruence.
  - rewrite Hb. cbn [snd]. unfold CoinsCache, uint256 in *.
    apply lookup_insert_eq.
Qed.

Lemma prefetch_cons (txin : CTxIn) (inputs : list CTxIn) (cache : CoinsCache) :
  prefetch backend (txin :: inputs) cache
  = prefetch backend inputs (snd (AccessCoin backend cache (prevout txin))).
Proof. reflexivity. Qed.

Lemma prefetch_sound (inputs : list CTxIn) (cache : CoinsCache) :
  cache_sound backend cache ->
  cache_sound backend (prefetch backend inputs cache).
Proof.
  revert cache. induction inputs as [|txin inputs IH]; intros cache Hs;
    [exact Hs|].
  rewrite prefetch_cons. apply IH. now apply AccessCoin_sound.
Qed.

Lemma prefetch_keeps (inputs : list CTxIn) (cache : CoinsCache)
    (k : uint256 * Z) (c : Coin) :
  cache !! k = Some c -> prefetch backend inputs cache !! k = Some c.
Proof.
  revert cache. induction inputs as [|txin inputs IH]; intros cache Hk;
    [exact Hk|].
  rewrite prefetch_cons. apply IH. now apply AccessCoin_keeps.
Qed.

Lemma prefetch_loads (inputs : list CTxIn) (cache : CoinsCache)
    (txin : CTxIn) (c : Coin) :
  cache_sound backend cache -> In txin inputs ->
  backend (prevout txin) = Some c ->
  prefetch backend inputs cache !! outpoint_key (prevout txin) = Some c.
Proof.
  revert cache. induction inputs as [|x inputs IH]; intros cache Hs Hin Hb;
    [destruct Hin|].
  rewrite prefetch_cons. destruct Hin as [->|Hin].
  - apply prefetch_keeps. now apply AccessCoin_loads.
  - apply IH; [now apply AccessCoin_sound | exact Hin | exact Hb].
Qed.

(** After the first loop, the cache answers for every input of the
    transaction what the backend answered. *)
Lemma cached_prefetch (inputs : list CTxIn) (txin : CTxIn) :
  In txin inputs ->
  cached (prefetch backend inputs ∅) (prevout txin)
  = coin_of backend (prevout txin).
Proof.
  intros Hin.
  assert (Hempty : cache_sound backend ∅).
  { intros o c Hc. unfold CoinsCache, uint256 in Hc.
    rewrite lookup_empty in Hc. discriminate. }
  unfold cached, coin_of, AccessCoin, viewDummy.
  destruct (backend (prevout txin)) as [c|] eqn:Hb.
  - now rewrite (prefetch_loads inputs ∅ txin c Hempty Hin Hb).
  - destruct (prefetch backend inputs ∅ !! outpoint_key (prevout txin))
      as [c|] eqn:Hc; [|reflexivity].
    apply (prefetch_sound inputs ∅ Hempty) in Hc. congruence.
Qed.

End CacheFacts.

Section FirstUnavailable.

Import Wallet SignerView.
Variable viewAll : COutPoint -> option Coin.

Lemma first_unavailable_spec (inputs : list CTxIn) :
  existsb (unavailable viewAll) inputs = true ->
  exists txin : CTxIn,
    inputs !! first_unavailable viewAll inputs = Some txin
    /\ unavailable viewAll txin = true
    /\ forall (j : nat) (txj : CTxIn),
         (j < first_unavailable viewAll inputs)%nat ->
         inputs !! j = Some txj -> unavailable viewAll txj = false.
Proof.
  induction inputs as [|x inputs IH]; simpl; [discriminate|].
  destruct (unavailable viewAll x) eqn:Hx; simpl.
  - intros _. exists x. repeat split; [exact Hx|]. intros j txj Hj. lia.
  - intros Hex. destruct (IH Hex) as (txin & Hk & Hbad & Hbefore).
    exists txin. repeat split; [exact Hk | exact Hbad|].
    intros [|j] txj Hj Hl; simpl in Hl.
    + now injection Hl as <-.
    + apply (Hbefore j); [lia | exact Hl].
Qed.

End FirstUnavailable.

Section SigningFacts.

Import Wallet SignerView.
Context `{SigningEngine}.
Variable view : CoinsCache.

Lemma set_scriptSig_prevouts (rawTx : CMutableTransaction) (i : nat)
    (sig : CScript) :
  prevouts (set_scriptSig rawTx i sig) = prevouts rawTx.
Proof.
  unfold prevouts, set_scriptSig; cbn [mvin].
  generalize i. induction (mvin rawTx) as [|x l IH]; intros [|j];
    simpl; try reflexivity.
  f_equal. apply IH.
Qed.

Lemma nth_prevout (rawTx : CMutableTransaction) (i : nat) :
  prevout (nth i (mvin rawTx) (CTxIn_of (mkOutPoint 0 0)))
  = nth i (prevouts rawTx) (mkOutPoint 0 0).
Proof.
  unfold prevouts.
  now rewrite <- (map_nth prevout (mvin rawTx) (CTxIn_of (mkOutPoint 0 0)) i).
Qed.

(** One turn of the signing loop on an input whose coin is spent or
    missing: the function returns false there with the fixed message. *)
Lemma sign_visit_unavailable (i : nat) (rawTx : CMutableTransaction)
    (strError : string) :
  IsSpent (cached view (nth i (prevouts rawTx) (mkOutPoint 0 0))) = true ->
  sign_visit view i (rawTx, strError)
  = Done (rawTx, "Input not found or already spent"%string).
Proof.
  intros Hspent. unfold sign_visit. rewrite nth_prevout.
  fold (cached view (nth i (prevouts rawTx) (mkOutPoint 0 0))).
  now rewrite Hspent.
Qed.

(** One turn on an input whose coin is there: the loop goes on with the
    message untouched, or the function returns false with the message of
    a script error; the previous outputs of the inputs stay as they are. *)
Lemma sign_visit_available (i : nat) (rawTx : CMutableTransaction)
    (strError : string) :
  IsSpent (cached view (nth i (prevouts rawTx) (mkOutPoint 0 0))) = false ->
  exists rawTx' : CMutableTransaction,
    prevouts rawTx' = prevouts rawTx
    /\ (sign_visit view i (rawTx, strError) = Next (rawTx', strError)
        \/ exists serror : ScriptError,
             sign_visit view i (rawTx, strError)
             = Done (rawTx', ScriptErrorString serror)).
Proof.
  intros Hthere. unfold sign_visit. rewrite nth_prevout.
  fold (cached view (nth i (prevouts rawTx) (mkOutPoint 0 0))).
  rewrite Hthere.
  match goal with
  | |- context [VerifyScript ?a ?b ?t ?j ?v] =>
    exists t; destruct (VerifyScript a b t j v) as [ok serror]
  end.
  split.
  - rewrite set_scriptSig_prevouts.
    destruct (_ || _); [apply set_scriptSig_prevouts | reflexivity].
  - destruct ok; cbn [negb]; [now left | right; now exists serror].
Qed.


End SigningFacts.

Section SigningClaims.

Import Wallet SignerView.
Context `{SigningEngine}.


End SigningClaims.

Section SigningScenarios.

Import Wallet SignerView Scenario.



End SigningScenarios.

(* ================================================================== *)
(** * The storage score keeper *)
(* ================================================================== *)

Section ReplaceNodeFacts.

Import Behavior BehaviorView.

(** What the loop of [ReplaceNode] does, whatever the stored addresses:
    with a non-zero address in the input it overwrites the first stored
    node; with a zero address it overwrites every stored address with
    zero and replaces nothing. *)
Lemma ReplaceNode_in_nonzero (i l : NodeHistory) (rest : list NodeHistory) :
  ipaddr i <> 0 -> ReplaceNode_in i (l :: rest) = (true, i :: rest).
Proof.
  intros Hnz. cbn [ReplaceNode_in ipaddr].
  destruct (Z.eqb_spec (ipaddr i) 0); [contradiction | reflexivity].
Qed.

Lemma ReplaceNode_in_zero (i : NodeHistory) (ns : list NodeHistory) :
  ipaddr i = 0 ->
  ReplaceNode_in i ns
  = (false, map (fun l => mkNode 0 (space l) (health l)) ns).
Proof.
  intros Hz. induction ns as [|l ns IH]; [reflexivity|].
  cbn [ReplaceNode_in ipaddr map]. rewrite Hz, IH. reflexivity.
Qed.

Lemma ReplaceNode_in_healthy (i : NodeHistory) (ns : list NodeHistory) :
  0 <= health i <= 100 -> healthy ns -> healthy (snd (ReplaceNode_in i ns)).
Proof.
  intros Hi Hns. destruct (Z.eq_dec (ipaddr i) 0) as [Hz|Hnz].
  - rewrite ReplaceNode_in_zero by exact Hz. cbn [snd].
    unfold healthy in *. rewrite Forall_map. exact Hns.
  - destruct ns as [|l rest]; [exact Hns|].
    rewrite ReplaceNode_in_nonzero by exact Hnz. cbn [snd].
    inversion Hns; subst. now constructor.
Qed.

Lemma ReturnNode_in_healthy (blank : NodeHistory) (ip : Z)
    (ns : list NodeHistory) :
  healthy ns -> HaveNode_in ip ns = true ->
  0 <= health (ReturnNode_in blank ip ns) <= 100.
Proof.
  intros Hns. induction Hns as [|l ns Hl Hns IH]; simpl; [discriminate|].
  destruct (ipaddr l =? ip); [intros _; exact Hl | exact IH].
Qed.

(** C9 fails on the code.  With the nodes 1 and 2 stored, replacing by a
    record for address 2 returns true but overwrites the node stored
    first (address 1) and leaves the node of address 2 as it was; the
    lookup by equality replaces the second node.  A record with address 0
    returns false and sets every stored address to zero. *)
Theorem ReplaceNode_overwrites_first_node :
  ReplaceNode Scenario.node_two_update Scenario.two_nodes
    = (true, mkBehavior [Scenario.node_two_update; Scenario.node_two] [])
  /\ ReplaceNode_by_equality Scenario.node_two_update (nodes Scenario.two_nodes)
     = (true, [Scenario.node_one; Scenario.node_two_update])
  /\ nodes (snd (ReplaceNode Scenario.node_two_update Scenario.two_nodes))
     <> snd (ReplaceNode_by_equality Scenario.node_two_update
               (nodes Scenario.two_nodes))
  /\ ReplaceNode Scenario.node_zero_update Scenario.two_nodes
     = (false, mkBehavior [mkNode 0 10 95; mkNode 0 20 3] []).
Proof.
  split; [reflexivity|]. split; [reflexivity|]. split; [|reflexivity].
  vm_compute. discriminate.
Qed.

End ReplaceNodeFacts.

Section AddProofFacts.

Import Behavior BehaviorView.

Variables SCORE_INCREASE SCORE_DECREASE : Z.
Variable blank : NodeHistory.

Hypothesis increase_range : 0 <= SCORE_INCREASE <= INT_MAX - 100.
Hypothesis decrease_range : 0 <= SCORE_DECREASE <= INT_MAX.

Lemma int_add_exact (h : Z) :
  0 <= h <= 100 -> int_add h SCORE_INCREASE = h + SCORE_INCREASE.
Proof.
  intros Hh. unfold int_add. apply wrap_signed_small; [lia|].
  unfold INT_MAX in *. change (2 ^ (32 - 1)) with 2147483648.
  change (2 ^ 31) with 2147483648 in increase_range. lia.
Qed.

Lemma int_sub_exact (h : Z) :
  0 <= h <= 100 -> int_sub h SCORE_DECREASE = h - SCORE_DECREASE.
Proof.
  intros Hh. unfold int_sub. apply wrap_signed_small; [lia|].
  unfold INT_MAX in *. change (2 ^ (32 - 1)) with 2147483648.
  change (2 ^ 31) with 2147483648 in decrease_range. lia.
Qed.

Lemma AddNode_healthy (i : NodeHistory) (s : CNodeBehavior) :
  0 <= health i <= 100 -> healthy (nodes s) -> healthy (nodes (AddNode i s)).
Proof.
  intros Hi Hs. unfold AddNode, healthy; cbn [nodes].
  apply Forall_app. split; [exact Hs | now repeat constructor].
Qed.

Lemma ReplaceNode_healthy (i : NodeHistory) (s : CNodeBehavior) :
  0 <= health i <= 100 -> healthy (nodes s) ->
  healthy (nodes (snd (ReplaceNode i s))).
Proof.
  intros Hi Hs. unfold ReplaceNode.
  generalize (ReplaceNode_in_healthy i (nodes s) Hi Hs).
  destruct (ReplaceNode_in i (nodes s)) as [r ns]. cbn [snd nodes]. tauto.
Qed.

(** One turn of the loop over the proof keeps every stored health
    within bounds. *)
Lemma proof_visit_healthy (i : StorageNode.t) (st : ProofState) :
  healthy (nodes (fst (fst st))) ->
  healthy (nodes (fst (fst (proof_visit SCORE_INCREASE blank i st)))).
Proof.
  destruct st as [[s in2] seen_nodes]. cbn [fst]. intros Hs.
  unfold proof_visit.
  set (created := {| ipaddr := StorageNode.ip i;
                     space := StorageNode.space i; health := 100 |}).
  assert (Hs1 : healthy (nodes (if negb (HaveNode (StorageNode.ip i) s)
                                then AddNode created s else s))).
  { destruct (negb _); [|exact Hs].
    apply AddNode_healthy; [simpl; lia | exact Hs]. }
  destruct (negb (HaveNode (StorageNode.ip i) s)).
  - revert Hs1. generalize (AddNode created s). intros s1 Hs1.
    destruct (HaveNode (StorageNode.ip i) s1) eqn:Hhave; cbn [fst];
      [|exact Hs1].
    apply ReplaceNode_healthy; [|exact Hs1].
    pose proof (ReturnNode_in_healthy blank (StorageNode.ip i) (nodes s1)
                  Hs1 Hhave) as Hr.
    fold (ReturnNode blank (StorageNode.ip i) s1) in Hr.
    destruct (_ && _); cbn [health].
    + rewrite int_add_exact by exact Hr.
      destruct (100 <? _) eqn:Hc; cbn [health]; lia.
    + destruct (100 <? _) eqn:Hc; cbn [health]; lia.
  - destruct (HaveNode (StorageNode.ip i) s) eqn:Hhave; cbn [fst];
      [|exact Hs].
    apply ReplaceNode_healthy; [|exact Hs].
    pose proof (ReturnNode_in_healthy blank (StorageNode.ip i) (nodes s)
                  Hs Hhave) as Hr.
    fold (ReturnNode blank (StorageNode.ip i) s) in Hr.
    destruct (_ && _); cbn [health].
    + rewrite int_add_exact by exact Hr.
      destruct (100 <? _) eqn:Hc; cbn [health]; lia.
    + destruct (100 <? _) eqn:Hc; cbn [health]; lia.
Qed.

Lemma proof_loop_healthy (ps : list StorageNode.t) (st : ProofState) :
  healthy (nodes (fst (fst st))) ->
  healthy (nodes (fst (fst
    (fold_left (fun st i => proof_visit SCORE_INCREASE blank i st) ps st)))).
Proof.
  revert st. induction ps as [|i ps IH]; intros st Hst; [exact Hst|].
  cbn [fold_left]. apply IH. now apply proof_visit_healthy.
Qed.

Lemma decay_visit_healthy (seen_nodes : list Z) (l : NodeHistory) :
  0 <= health l <= 100 ->
  0 <= health (decay_visit SCORE_DECREASE seen_nodes l) <= 100.
Proof.
  intros Hl. unfold decay_visit.
  destruct (existsb _ seen_nodes); [exact Hl|]. cbn [health].
  rewrite int_sub_exact by exact Hl.
  destruct (Z.ltb_spec (health l - SCORE_DECREASE) 0); lia.
Qed.

Lemma HaveNode_in_snoc (ip0 : Z) (ns : list NodeHistory) (l : NodeHistory) :
  ipaddr l = ip0 -> HaveNode_in ip0 (ns ++ [l]) = true.
Proof.
  intros Hl. induction ns as [|x ns IH]; simpl.
  - now rewrite Hl, Z.eqb_refl.
  - destruct (ipaddr x =? ip0); [reflexivity | exact IH].
Qed.

Lemma ReturnNode_in_snoc (ip0 : Z) (ns : list NodeHistory) (l : NodeHistory) :
  ipaddr l = ip0 -> HaveNode_in ip0 ns = false ->
  ReturnNode_in blank ip0 (ns ++ [l]) = l.
Proof.
  intros Hl. induction ns as [|x ns IH]; simpl.
  - now rewrite Hl, Z.eqb_refl.
  - destruct (ipaddr x =? ip0); [discriminate | exact IH].
Qed.

Lemma ReplaceNode_in_snoc_last (l : NodeHistory) (ns : list NodeHistory) :
  last (snd (ReplaceNode_in l (ns ++ [l]))) = Some l.
Proof.
  destruct (Z.eq_dec (ipaddr l) 0) as [Hz|Hnz].
  - rewrite ReplaceNode_in_zero by exact Hz. cbn [snd].
    rewrite map_app. cbn [map]. rewrite last_snoc.
    destruct l as [a sp h]. simpl in Hz. now subst a.
  - destruct ns as [|x ns]; cbn [app].
    + now rewrite ReplaceNode_in_nonzero.
    + rewrite ReplaceNode_in_nonzero by exact Hnz. cbn [snd].
      change (l :: ns ++ [l]) with ((l :: ns) ++ [l]). apply last_snoc.
Qed.

(** A node the proof names for the first time is stored with health 100,
    and is still stored with health 100 at the end of that turn of the
    loop. *)
Lemma proof_visit_creates_full_health (i : StorageNode.t) (s : CNodeBehavior)
    (in2 : NodeHistory) (seen_nodes : list Z) :
  HaveNode (StorageNode.ip i) s = false ->
  last (nodes (fst (fst (proof_visit SCORE_INCREASE blank i (s, in2, seen_nodes)))))
  = Some {| ipaddr := StorageNode.ip i; space := StorageNode.space i;
            health := 100 |}.
Proof.
  intros Hnew. unfold proof_visit. rewrite Hnew. cbn [negb].
  set (created := {| ipaddr := StorageNode.ip i;
                     space := StorageNode.space i; health := 100 |}).
  unfold HaveNode, ReturnNode, AddNode; cbn [nodes].
  rewrite (HaveNode_in_snoc _ _ created) by reflexivity.
  rewrite (ReturnNode_in_snoc _ _ created) by (reflexivity || exact Hnew).
  cbn [fst].
  match goal with
  | |- context [ReplaceNode ?x _] =>
    assert (Hsame : x = created); [|rewrite Hsame]
  end.
  { destruct (_ && _); cbn [health ipaddr space created].
    - rewrite int_add_exact by lia.
      destruct (Z.ltb_spec 100 (100 + SCORE_INCREASE)); [reflexivity|].
      unfold created. f_equal. lia.
    - reflexivity. }
  unfold ReplaceNode; cbn [nodes].
  generalize (ReplaceNode_in_snoc_last created (nodes s)).
  destruct (ReplaceNode_in created (nodes s ++ [created])) as [r ns'].
  cbn [snd nodes]. tauto.
Qed.

(** C10.  With SCORE_INCREASE and SCORE_DECREASE non-negative [int]s
    (and 100 + SCORE_INCREASE representable), [AddProof] keeps every
    stored health within [0, 100]: from a state where all stored healths
    are in that range, all stored healths are in that range afterwards. *)
Theorem AddProof_keeps_health_in_range (netproof : CNetworkProof)
    (s : CNodeBehavior) :
  healthy (nodes s) ->
  healthy (nodes (AddProof SCORE_INCREASE SCORE_DECREASE blank netproof s)).
Proof.
  intros Hs. unfold AddProof.
  destruct (HaveSeen (height netproof) s); [exact Hs|].
  generalize (proof_loop_healthy (proof_nodes netproof) (s, blank, []) Hs).
  unfold ProofState.
  match goal with
  | |- context [fold_left ?f ?l ?a] =>
    destruct (fold_left f l a) as [[s1 in2] seen_nodes]
  end.
  cbn [fst nodes]. intros Hl. unfold healthy in *.
  rewrite Forall_map. eapply Forall_impl; [exact Hl|].
  intros l Hlh. now apply decay_visit_healthy.
Qed.

End AddProofFacts.

Lemma AddProof_keeps_health_in_range_witness :
  BehaviorView.healthy (Behavior.nodes Scenario.two_nodes)
  /\ BehaviorView.healthy
       (Behavior.nodes
          (Behavior.AddProof 10 5 (Behavior.mkNode 0 0 0)
             Scenario.proof_for_node_one Scenario.two_nodes)).
Proof.
  assert (Hs : BehaviorView.healthy (Behavior.nodes Scenario.two_nodes)).
  { repeat constructor; simpl; lia. }
  split; [exact Hs|].
  apply (AddProof_keeps_health_in_range 10 5 (Behavior.mkNode 0 0 0)).
  - unfold INT_MAX. lia.
  - unfold INT_MAX. lia.
  - exact Hs.
Defined.

(* ================================================================== *)
(** * More about coin selection *)
(* ================================================================== *)

Section FundingLoopMore.

Import Wallet WalletView.

(** The inputs already in [ret] are carried along; they do not bear on
    what the loop does. *)
Lemma take_visit_ret_prefix (amountMin : CAmount) (l : list Candidate)
    (a0 : CAmount) (r0 r1 : list CTxIn) :
  for_each (take_visit amountMin) l (a0, r0 ++ r1) =
  match for_each (take_visit amountMin) l (a0, r1) with
  | Next (a, r) => Next (a, r0 ++ r)
  | Done (a, r) => Done (a, r0 ++ r)
  end.
Proof.
  revert a0 r1. induction l as [|c l IH]; intros a0 r1; [reflexivity|].
  cbn [for_each]. unfold take_visit at 1 3. cbn [fst snd].
  destruct (amountMin <=? amount_add a0 (nValue (cand_out c))).
  - now rewrite app_assoc.
  - rewrite <- app_assoc. apply IH.
Qed.

Lemma funding_result_ret_prefix (amountMin : CAmount) (l : list Candidate)
    (ret0 : list CTxIn) :
  funding_result (for_each (take_visit amountMin) l (0, ret0)) =
  (fst (funding_result (for_each (take_visit amountMin) l (0, []))),
   ret0 ++ snd (funding_result (for_each (take_visit amountMin) l (0, [])))).
Proof.
  rewrite <- (app_nil_r ret0) at 1. rewrite take_visit_ret_prefix.
  unfold FundState, CAmount.
  destruct (for_each _ _ _) as [[a r]|[a r]]; reflexivity.
Qed.

(** Lowering the target keeps a success a success, and selects a prefix of
    what was selected. *)
Lemma take_visit_lower_target (amountMin amountMin' : CAmount)
    (l : list Candidate) (r0 : list CTxIn) (a : CAmount) (r : list CTxIn) :
  amountMin' <= amountMin ->
  for_each (take_visit amountMin) l (0, r0) = Done (a, r) ->
  exists (a' : CAmount) (r' : list CTxIn),
    for_each (take_visit amountMin') l (0, r0) = Done (a', r')
    /\ r' `prefix_of` r.
Proof.
  intros Hle Hdone.
  generalize (take_visit_run amountMin l 0 r0).
  unfold FundState, CAmount in *. rewrite Hdone.
  intros (k & Hk & Ha & Hr & Hge & _). clear Hdone.
  generalize (take_visit_run amountMin' l 0 r0).
  unfold FundState, CAmount in *.
  destruct (for_each _ _ _) as [[a' r']|[a' r']]; cbv beta iota.
  - intros (_ & _ & Hlow). specialize (Hlow k Hk). subst a. lia.
  - intros (k' & Hk' & Ha' & Hr' & Hge' & Hlow').
    exists a', r'. split; [reflexivity|].
    assert (Hkk : (k' <= k)%nat).
    { destruct (Nat.le_gt_cases k' k) as [|Hgt]; [assumption|].
      specialize (Hlow' k (conj (proj1 Hk) Hgt)). subst a. lia. }
    subst r r'. apply prefix_app.
    replace (take k' l) with (take k' (take k l))
      by (rewrite take_take; f_equal; lia).
    rewrite <- (firstn_map cand_input). apply prefix_take.
Qed.

Lemma NoDup_map_filter {A B : Type} (f : A -> B) (keep : A -> bool) (l : list A) :
  NoDup (map f l) -> NoDup (map f (List.filter keep l)).
Proof.
  induction l as [|x l IH]; simpl; [trivial|].
  rewrite NoDup_cons. intros [Hx Hl].
  destruct (keep x); simpl; [|now apply IH].
  apply NoDup_cons. split; [|now apply IH].
  intros Hin. apply Hx. apply list_elem_of_In in Hin. apply list_elem_of_In.
  apply in_map_iff in Hin as (y & Hy & Hin). apply in_map_iff.
  exists y. split; [exact Hy|]. now apply filter_In in Hin as [Hin _].
Qed.

Lemma NoDup_map_take {A B : Type} (f : A -> B) (k : nat) (l : list A) :
  NoDup (map f l) -> NoDup (map f (take k l)).
Proof.
  intros Hl. rewrite <- firstn_map.
  eapply sublist_NoDup; [exact Hl | apply sublist_take].
Qed.

Lemma enumerate_from_indices {A : Type} (start : nat) (l : list A) :
  map fst (enumerate_from start l) = seq start (length l).
Proof.
  revert start. induction l as [|x l IH]; intros start; simpl; [reflexivity|].
  now rewrite IH.
Qed.

Lemma NoDup_map_injective {A B : Type} (f : A -> B) (l : list A) :
  (forall x y : A, f x = f y -> x = y) -> NoDup l -> NoDup (map f l).
Proof.
  intros Hinj. induction l as [|x l IH]; simpl; [intros _; constructor|].
  rewrite !NoDup_cons. intros [Hx Hl]. split; [|now apply IH].
  intros Hin. apply Hx. apply list_elem_of_In in Hin. apply list_elem_of_In.
  apply in_map_iff in Hin as (y & Hy & Hin). now rewrite <- (Hinj _ _ Hy).
Qed.

(** The outputs of one transaction have pairwise distinct outpoints. *)
Lemma outputs_of_outpoints (t : CTransaction) :
  NoDup (map cand_outpoint (outputs_of t)).
Proof.
  unfold outputs_of, enumerate.
  assert (Heq : map cand_outpoint (map (pair (GetHash t)) (enumerate_from 0 (vout t)))
                = map (fun idx => mkOutPoint (GetHash t) (Z.of_nat idx))
                      (map fst (enumerate_from 0 (vout t)))).
  { rewrite !map_map. apply map_ext. intros [idx o]. reflexivity. }
  rewrite Heq, enumerate_from_indices.
  apply NoDup_map_injective.
  - intros x y Hxy. injection Hxy as Hxy. lia.
  - apply NoDup_ListNoDup, seq_NoDup.
Qed.

(** Transactions with pairwise distinct hashes have pairwise distinct
    outpoints. *)
Lemma flat_outputs_outpoints {B : Type} (txof : B -> CTransaction) (l : list B) :
  NoDup (map (fun x => GetHash (txof x)) l) ->
  NoDup (map cand_outpoint (flat_map (fun x => outputs_of (txof x)) l)).
Proof.
  induction l as [|x l IH]; simpl; [intros _; constructor|].
  rewrite NoDup_cons. intros [Hx Hl].
  rewrite map_app. apply NoDup_app. split; [apply outputs_of_outpoints|].
  split; [|now apply IH].
  intros o Ho Ho'. apply Hx.
  apply list_elem_of_In in Ho. apply list_elem_of_In in Ho'.
  apply list_elem_of_In.
  apply in_map_iff in Ho as (c & <- & Hc).
  apply in_map_iff in Ho' as (c' & Heq & Hc').
  apply In_outputs_of in Hc as [Hh _].
  apply in_flat_map in Hc' as (y & Hy & Hc').
  apply In_outputs_of in Hc' as [Hh' _].
  apply in_map_iff. exists y. split; [|exact Hy].
  rewrite <- Hh, <- Hh'.
  unfold cand_outpoint in Heq. now injection Heq as Heq _.
Qed.

Lemma inputs_of_outpoints (l : list Candidate) :
  NoDup (map cand_outpoint l) -> NoDup (map cand_input l).
Proof.
  intros Hl. unfold cand_input.
  rewrite <- (map_map cand_outpoint CTxIn_of).
  apply NoDup_map_injective; [|exact Hl].
  intros x y Hxy. now injection Hxy.
Qed.

End FundingLoopMore.

Section FundingMore.

Import Wallet WalletView.
Context `{ScriptOps}.
Variable w : CWallet.

(** X1.  [FundTokenTransaction] is first-fit over the outputs that pass its
    filters for the requested name, in the order of [mapWallet]: true at
    the first non-empty prefix whose running total reaches [amountMin],
    false after pushing all of them when no non-empty prefix does. *)
Theorem FundTokenTransaction_first_fit (tokenname : string)
    (amountMin : CAmount) (ret0 : list CTxIn) :
  let eligible :=
    List.filter (token_eligible w tokenname) (token_candidates w) in
  match FundTokenTransaction w tokenname amountMin ret0 with
  | (true, amountFound, ret) =>
    exists k : nat,
      (0 < k <= length eligible)%nat
      /\ ret = ret0 ++ map cand_input (take k eligible)
      /\ amountFound = accumulated (take k eligible)
      /\ amountMin <= amountFound
      /\ forall j : nat, (0 < j < k)%nat ->
           accumulated (take j eligible) < amountMin
  | (false, amountFound, ret) =>
    ret = ret0 ++ map cand_input eligible
    /\ amountFound = accumulated eligible
    /\ forall j : nat, (0 < j <= length eligible)%nat ->
         accumulated (take j eligible) < amountMin
  end.
Proof.
  intros eligible. rewrite FundTokenTransaction_unfold. fold eligible.
  generalize (take_visit_run amountMin eligible 0 ret0).
  unfold FundState, CAmount.
  destruct (for_each _ _ _) as [[a r]|[a r]]; cbn [funding_result]; intros Hrun.
  - destruct Hrun as (Ha & Hr & Hlow). repeat split; assumption.
  - destruct Hrun as (k & Hk & Ha & Hr & Hge & Hlow). exists k.
    repeat split; try assumption; lia.
Qed.

(** X2.  Every input [FundMintTransaction] pushes points at an output of
    a spendable wallet transaction that the wallet owns, that is unspent,
    whose transaction is not in the mempool, that no mempool transaction
    spends, and whose script is neither a token script nor checksum data. *)
Theorem FundMintTransaction_selects_plain_owned (amountMin : CAmount)
    (ret0 : list CTxIn) (i : CTxIn) :
  In i (appended ret0 (snd (FundMintTransaction w amountMin ret0))) ->
  exists (wtx : CWalletTx) (idx : nat) (o : CTxOut),
    In wtx (GetSpendableTXs w)
    /\ vout (tx wtx) !! idx = Some o
    /\ i = CTxIn_of (mkOutPoint (GetHash (tx wtx)) (Z.of_nat idx))
    /\ IsMine w o = true
    /\ IsOutputUnspent w (prevout i) = true
    /\ IsInMempool w (GetHash (tx wtx)) = false
    /\ IsOutputInMempool w (prevout i) = false
    /\ IsPayToToken (scriptPubKey o) = false
    /\ IsChecksumData (scriptPubKey o) = false.
Proof.
  rewrite FundMintTransaction_unfold. intros Hin.
  apply appended_from_filter in Hin as (c & Hc & Hkeep & ->).
  unfold mint_candidates in Hc. apply in_flat_map in Hc as (wtx & Hw & Hc).
  apply In_outputs_of in Hc as [Hhash Hidx].
  unfold mint_eligible, mint_other_filters in Hkeep.
  rewrite !andb_true_iff, !negb_true_iff in Hkeep.
  destruct Hkeep as [[[[[[Hmem Hunspent] Hmine] Hspent] Htok] Hchk] _].
  exists wtx, (fst (snd c)), (cand_out c).
  unfold cand_input at 1, cand_outpoint at 1. rewrite Hhash in *.
  repeat split; assumption.
Qed.

(** X3.  When no output passes the filters, both funding functions return
    false with [amountFound] zero and [ret] as it was, whatever the target,
    a target of zero or less included; and only then do they leave [ret]
    as it was. *)
Theorem funding_without_eligible_output (tokenname : string)
    (amountMin : CAmount) (ret0 : list CTxIn) :
  (List.filter (mint_eligible w) (mint_candidates w) = [] ->
   FundMintTransaction w amountMin ret0 = (false, 0, ret0))
  /\ (List.filter (token_eligible w tokenname) (token_candidates w) = [] ->
      FundTokenTransaction w tokenname amountMin ret0 = (false, 0, ret0))
  /\ (snd (FundMintTransaction w amountMin ret0) = ret0 ->
      List.filter (mint_eligible w) (mint_candidates w) = [])
  /\ (snd (FundTokenTransaction w tokenname amountMin ret0) = ret0 ->
      List.filter (token_eligible w tokenname) (token_candidates w) = []).
Proof.
  assert (Hgen : forall l : list Candidate,
             snd (funding_result (for_each (take_visit amountMin) l (0, ret0)))
             = ret0 -> l = []).
  { intros l. generalize (take_visit_run amountMin l 0 ret0).
    unfold FundState, CAmount.
    destruct (for_each _ _ _) as [[a r]|[a r]]; cbn [funding_result snd].
    - intros (_ & -> & _) Heq.
      rewrite <- (app_nil_r ret0) in Heq at 2. apply app_inv_head in Heq.
      now apply map_eq_nil in Heq.
    - intros (k & Hk & _ & -> & _) Heq.
      rewrite <- (app_nil_r ret0) in Heq at 2. apply app_inv_head in Heq.
      apply map_eq_nil in Heq. apply (f_equal (@length Candidate)) in Heq.
      rewrite length_take in Heq. simpl in Heq.
      apply nil_length_inv. lia. }
  split; [|split; [|split]].
  - intros Hnone. rewrite FundMintTransaction_unfold, Hnone. reflexivity.
  - intros Hnone. rewrite FundTokenTransaction_unfold, Hnone. reflexivity.
  - rewrite FundMintTransaction_unfold. apply Hgen.
  - rewrite FundTokenTransaction_unfold. apply Hgen.
Qed.

(** X4.  A call that succeeds for a target succeeds for every smaller
    target, and then pushes a prefix of the inputs it pushed for the
    larger one. *)
Theorem funding_succeeds_for_smaller_target (tokenname : string)
    (amountMin amountMin' : CAmount) (ret0 : list CTxIn) :
  amountMin' <= amountMin ->
  (fst (fst (FundMintTransaction w amountMin ret0)) = true ->
   fst (fst (FundMintTransaction w amountMin' ret0)) = true
   /\ snd (FundMintTransaction w amountMin' ret0)
      `prefix_of` snd (FundMintTransaction w amountMin ret0))
  /\ (fst (fst (FundTokenTransaction w tokenname amountMin ret0)) = true ->
      fst (fst (FundTokenTransaction w tokenname amountMin' ret0)) = true
      /\ snd (FundTokenTransaction w tokenname amountMin' ret0)
         `prefix_of` snd (FundTokenTransaction w tokenname amountMin ret0)).
Proof.
  intros Hle.
  assert (Hgen : forall l : list Candidate,
             fst (fst (funding_result
                         (for_each (take_visit amountMin) l (0, ret0)))) = true ->
             fst (fst (funding_result
                         (for_each (take_visit amountMin') l (0, ret0)))) = true
             /\ snd (funding_result (for_each (take_visit amountMin') l (0, ret0)))
                `prefix_of`
                snd (funding_result (for_each (take_visit amountMin) l (0, ret0)))).
  { intros l.
    destruct (for_each (take_visit amountMin) l (0, ret0)) as [[a r]|[a r]] eqn:Hrun;
      cbn [funding_result fst snd]; [discriminate|]. intros _.
    destruct (take_visit_lower_target amountMin amountMin' l ret0 a r Hle Hrun)
      as (a' & r' & Hrun' & Hpre).
    rewrite Hrun'. cbn [funding_result fst snd]. split; [reflexivity | exact Hpre]. }
  split.
  - rewrite !FundMintTransaction_unfold. apply Hgen.
  - rewrite !FundTokenTransaction_unfold. apply Hgen.
Qed.

(** X5.  When the wallet transactions have pairwise distinct hashes, no
    outpoint is pushed twice in one call. *)
Theorem funding_inputs_distinct (tokenname : string) (amountMin : CAmount)
    (ret0 : list CTxIn) :
  (NoDup (map (fun wtx => GetHash (tx wtx)) (GetSpendableTXs w)) ->
   NoDup (appended ret0 (snd (FundMintTransaction w amountMin ret0))))
  /\ (NoDup (map (fun e => GetHash (tx (snd e))) (mapWallet w)) ->
      NoDup (appended ret0
               (snd (FundTokenTransaction w tokenname amountMin ret0)))).
Proof.
  split; intros Hnd.
  - rewrite FundMintTransaction_unfold.
    destruct (take_visit_appended amountMin
                (List.filter (mint_eligible w) (mint_candidates w)) ret0)
      as [k ->].
    apply NoDup_map_take, NoDup_map_filter, inputs_of_outpoints.
    unfold mint_candidates.
    exact (flat_outputs_outpoints (fun wtx => tx wtx) _ Hnd).
  - rewrite FundTokenTransaction_unfold.
    destruct (take_visit_appended amountMin
                (List.filter (token_eligible w tokenname) (token_candidates w)) ret0)
      as [k ->].
    apply NoDup_map_take, NoDup_map_filter, inputs_of_outpoints.
    unfold token_candidates.
    exact (flat_outputs_outpoints (fun e => tx (snd e)) _ Hnd).
Qed.

(** X6.  Neither function clears [ret]: the result for a vector that
    already holds inputs is the result for an empty vector with those
    inputs in front.  [amountFound] and the outcome do not depend on what
    the vector held. *)
Theorem funding_appends_to_ret (tokenname : string) (amountMin : CAmount)
    (ret0 : list CTxIn) :
  FundMintTransaction w amountMin ret0
  = (fst (FundMintTransaction w amountMin []),
     ret0 ++ snd (FundMintTransaction w amountMin []))
  /\ FundTokenTransaction w tokenname amountMin ret0
     = (fst (FundTokenTransaction w tokenname amountMin []),
        ret0 ++ snd (FundTokenTransaction w tokenname amountMin [])).
Proof.
  split.
  - rewrite !FundMintTransaction_unfold. apply funding_result_ret_prefix.
  - rewrite !FundTokenTransaction_unfold. apply funding_result_ret_prefix.
Qed.

(** X7.  When the values of the eligible outputs are non-negative and their
    sum fits the 64-bit accumulator, [amountFound] is the plain sum of the
    values of the inputs pushed; a call that returns true has pushed at
    least [amountMin], and a call that returns false had either nothing
    eligible or less than [amountMin] in all eligible outputs together. *)
Theorem FundMintTransaction_plain_sum (amountMin : CAmount) (ret0 : list CTxIn) :
  let eligible := List.filter (mint_eligible w) (mint_candidates w) in
  Forall (fun c => 0 <= nValue (cand_out c)) eligible ->
  total_value eligible < 2 ^ 63 ->
  exists k : nat,
    snd (FundMintTransaction w amountMin ret0)
      = ret0 ++ map cand_input (take k eligible)
    /\ snd (fst (FundMintTransaction w amountMin ret0))
       = total_value (take k eligible)
    /\ (fst (fst (FundMintTransaction w amountMin ret0)) = true ->
        amountMin <= total_value (take k eligible))
    /\ (fst (fst (FundMintTransaction w amountMin ret0)) = false ->
        k = length eligible
        /\ (eligible = [] \/ total_value eligible < amountMin)).
Proof.
  intros eligible Hpos Hfit.
  assert (Hprefix : forall j : nat,
             accumulated (take j eligible) = total_value (take j eligible)).
  { intros j. apply accumulated_exact.
    - apply Forall_take. exact Hpos.
    - assert (Hmono : total_value (take j eligible) <= total_value eligible).
      { clear Hfit. revert j. induction Hpos as [|c l Hc Hl IH]; intros [|j];
          simpl; try lia.
        - assert (0 <= total_value l)
            by (clear -Hl; induction Hl; simpl; lia). lia.
        - specialize (IH j). lia. }
      lia. }
  pose proof (FundMintTransaction_unfold w amountMin ret0) as Hunf.
  fold eligible in Hunf. rewrite Hunf.
  generalize (take_visit_run amountMin eligible 0 ret0).
  unfold FundState, CAmount.
  destruct (for_each _ _ _) as [[a r]|[a r]]; cbn [funding_result fst snd];
    intros Hrun.
  - destruct Hrun as (Ha & Hr & Hlow). exists (length eligible).
    pose proof (Hprefix (length eligible)) as Hall.
    rewrite firstn_all in Hall |- *. split; [exact Hr|].
    split; [rewrite Ha; exact Hall|].
    split; [discriminate|]. intros _. split; [reflexivity|].
    destruct (Nat.eq_dec (length eligible) 0%nat) as [Hz|Hnz].
    + left. now apply nil_length_inv.
    + right. specialize (Hlow (length eligible)).
      rewrite firstn_all in Hlow. rewrite <- Hall. apply Hlow. lia.
  - destruct Hrun as (k & Hk & Ha & Hr & Hge & Hlow). exists k.
    assert (Hat : a = total_value (take k eligible))
      by (rewrite Ha; apply Hprefix).
    split; [exact Hr|]. split; [exact Hat|].
    split; [intros _; rewrite <- Hat; exact Hge | discriminate].
Qed.

End FundingMore.

(* ================================================================== *)
(** * More about unconfirmed balances *)
(* ================================================================== *)

Section BalanceMore.

Import Wallet WalletView.
Context `{ScriptOps}.
Variable w : CWallet.

Lemma credit_lookup_other (b : gmap string CAmount) (name nm : string)
    (value : CAmount) :
  name <> nm -> credit b name value !! nm = b !! nm.
Proof. intros Hne. unfold credit. now rewrite lookup_insert_ne. Qed.

Lemma credit_lookup_same (b : gmap string CAmount) (name : string)
    (value : CAmount) :
  credit b name value !! name = Some (amount_add (default 0 (b !! name)) value).
Proof. unfold credit. now rewrite lookup_insert_eq. Qed.

Lemma credited_other_names (l : list CTxOut) (b : gmap string CAmount)
    (nm : string) :
  (forall o : CTxOut, In o l -> checked_name o <> nm) ->
  fold_left credit_output l b !! nm = b !! nm.
Proof.
  revert b. induction l as [|o l IH]; intros b Hall; [reflexivity|].
  cbn [fold_left]. rewrite IH by (intros o' Ho'; apply Hall; now right).
  unfold credit_output. apply credit_lookup_other. apply Hall. now left.
Qed.

(** The values credited to one name, in order, on top of what the map
    held for it. *)
Lemma credited_one_name (l : list CTxOut) (b : gmap string CAmount)
    (nm : string) :
  default 0 (fold_left credit_output l b !! nm)
  = fold_left amount_add
      (map nValue (List.filter (fun o => String.eqb (checked_name o) nm) l))
      (default 0 (b !! nm)).
Proof.
  revert b. induction l as [|o l IH]; intros b; [reflexivity|].
  cbn [fold_left List.filter]. rewrite IH. unfold credit_output.
  destruct (String.eqb_spec (checked_name o) nm) as [Heq|Hne].
  - cbn [map fold_left]. rewrite Heq, credit_lookup_same. reflexivity.
  - now rewrite credit_lookup_other.
Qed.

(** X8.  Whatever the outcome, [GetUnconfirmedTokenBalance] leaves alone
    the entry (or the absence of an entry) of every name that none of the
    wallet-owned token outputs of the pool carries. *)
Theorem GetUnconfirmedTokenBalance_other_names (pool : list CTransaction)
    (balances : gmap string CAmount) (strError : string) (nm : string) :
  (forall o : CTxOut,
      In o (owned_token_outputs w pool) -> checked_name o <> nm) ->
  snd (fst (GetUnconfirmedTokenBalance w pool balances strError)) !! nm
  = balances !! nm.
Proof.
  intros Hall. rewrite GetUnconfirmedTokenBalance_unfold.
  generalize (check_visit_run (owned_token_outputs w pool) balances strError).
  destruct (for_each _ _ _) as [[b e]|[b e]]; cbn [balance_result fst snd].
  - intros [_ ->]. now apply credited_other_names.
  - intros (pre & bad & post & Hl & _ & _ & -> & _).
    apply credited_other_names. intros o Ho. apply Hall.
    rewrite Hl. apply in_or_app. now left.
Qed.

(** X9.  The call succeeds exactly when every wallet-owned token output of
    the pool passes [ContextualCheckToken]; the map is then the entry map
    credited with each of them in order.  With no such output the call
    returns true and leaves the map and [strError] as they were. *)
Theorem GetUnconfirmedTokenBalance_success (pool : list CTransaction)
    (balances : gmap string CAmount) (strError : string) :
  (fst (fst (GetUnconfirmedTokenBalance w pool balances strError))
   = forallb check_ok (owned_token_outputs w pool))
  /\ (fst (fst (GetUnconfirmedTokenBalance w pool balances strError)) = true ->
      snd (fst (GetUnconfirmedTokenBalance w pool balances strError))
      = fold_left credit_output (owned_token_outputs w pool) balances)
  /\ (owned_token_outputs w pool = [] ->
      GetUnconfirmedTokenBalance w pool balances strError
      = (true, balances, strError)).
Proof.
  rewrite GetUnconfirmedTokenBalance_unfold.
  generalize (check_visit_run (owned_token_outputs w pool) balances strError).
  destruct (for_each check_visit (owned_token_outputs w pool) _)
    as [[b e]|[b e]] eqn:Hrun; cbn [balance_result fst snd].
  - intros [Hall ->]. split; [|split].
    + symmetry. apply forallb_forall. intros o Ho.
      rewrite Forall_forall in Hall. apply Hall. now apply list_elem_of_In.
    + reflexivity.
    + intros Hnil. rewrite Hnil in Hrun. cbn [for_each] in Hrun.
      inversion Hrun. now rewrite Hnil.
  - intros (pre & bad & post & Hl & _ & Hbad & _ & _). split; [|split].
    + symmetry. apply not_true_is_false. intros Hall.
      rewrite forallb_forall in Hall.
      assert (check_ok bad = true)
        by (apply Hall; rewrite Hl; apply in_or_app; right; now left).
      congruence.
    + discriminate.
    + intros Hnil. rewrite Hnil in Hl. now destruct pre.
Qed.

(** X10.  Scanning a pool is scanning a first part and then, if that
    succeeded, the rest from the map and message the first part left; a
    failure in the first part is the failure of the whole. *)
Theorem GetUnconfirmedTokenBalance_app (pool1 pool2 : list CTransaction)
    (balances : gmap string CAmount) (strError : string) :
  GetUnconfirmedTokenBalance w (pool1 ++ pool2) balances strError =
  match GetUnconfirmedTokenBalance w pool1 balances strError with
  | (true, b1, e1) => GetUnconfirmedTokenBalance w pool2 b1 e1
  | (false, b1, e1) => (false, b1, e1)
  end.
Proof.
  unfold GetUnconfirmedTokenBalance. rewrite for_each_app.
  destruct (for_each _ pool1 _) as [[b e]|[b e]]; reflexivity.
Qed.

(** X11.  After a successful call the balance of a name is what the map
    held for it at entry (zero when it held nothing) plus, in order, the
    value of every wallet-owned token output of the pool that carries that
    name, added in 64-bit arithmetic. *)
Theorem GetUnconfirmedTokenBalance_per_name (pool : list CTransaction)
    (balances : gmap string CAmount) (strError : string) (nm : string) :
  fst (fst (GetUnconfirmedTokenBalance w pool balances strError)) = true ->
  default 0
    (snd (fst (GetUnconfirmedTokenBalance w pool balances strError)) !! nm)
  = fold_left amount_add
      (map nValue
         (List.filter (fun o => String.eqb (checked_name o) nm)
                      (owned_token_outputs w pool)))
      (default 0 (balances !! nm)).
Proof.
  rewrite GetUnconfirmedTokenBalance_unfold.
  generalize (check_visit_run (owned_token_outputs w pool) balances strError).
  destruct (for_each _ _ _) as [[b e]|[b e]]; cbn [balance_result fst snd];
    [|discriminate].
  intros [_ ->] _. apply credited_one_name.
Qed.

End BalanceMore.

(* ================================================================== *)
(** * More about signing *)
(* ================================================================== *)

Section SigningMore.

Import Wallet SignerView.
Context `{SigningEngine}.

Lemma set_scriptSig_other (rawTx : CMutableTransaction) (i j : nat)
    (sig : CScript) :
  i <> j -> mvin (set_scriptSig rawTx i sig) !! j = mvin rawTx !! j.
Proof. intros Hne. unfold set_scriptSig; cbn [mvin]. now apply list_lookup_alter_ne. Qed.

(** One turn of the signing loop touches nothing but the unlocking script
    of its own input. *)
Lemma sign_visit_frame (view : CoinsCache) (i : nat)
    (rawTx : CMutableTransaction) (strError : string) :
  let t := fst (flow_state (sign_visit view i (rawTx, strError))) in
  prevouts t = prevouts rawTx
  /\ mvout t = mvout rawTx
  /\ forall j : nat, i <> j -> mvin t !! j = mvin rawTx !! j.
Proof.
  unfold sign_visit.
  destruct (IsSpent _); [cbn; auto|].
  match goal with
  | |- context [VerifyScript ?a ?b ?t ?j ?v] =>
    destruct (VerifyScript a b t j v) as [ok serror]
  end.
  assert (Hframe : forall t1 : CMutableTransaction,
             prevouts t1 = prevouts rawTx -> mvout t1 = mvout rawTx ->
             (forall j : nat, i <> j -> mvin t1 !! j = mvin rawTx !! j) ->
             forall sig : CScript,
               prevouts (set_scriptSig t1 i sig) = prevouts rawTx
               /\ mvout (set_scriptSig t1 i sig) = mvout rawTx
               /\ forall j : nat, i <> j ->
                    mvin (set_scriptSig t1 i sig) !! j = mvin rawTx !! j).
  { intros t1 Hp Ho Hj sig. rewrite set_scriptSig_prevouts.
    split; [exact Hp|]. split; [exact Ho|].
    intros j Hne. rewrite set_scriptSig_other by exact Hne. now apply Hj. }
  destruct ok; cbn [negb flow_state fst]; apply Hframe;
    destruct (_ || _); try reflexivity; try (intros; reflexivity);
    try apply set_scriptSig_prevouts;
    intros j Hne; now apply set_scriptSig_other.
Qed.

(** The loop touches nothing but the unlocking scripts of the inputs it
    visits. *)
Lemma sign_loop_frame (view : CoinsCache) (idxs : list nat)
    (rawTx : CMutableTransaction) (strError : string) :
  let t := fst (flow_state (for_each (sign_visit view) idxs (rawTx, strError))) in
  prevouts t = prevouts rawTx
  /\ mvout t = mvout rawTx
  /\ forall j : nat, ~ In j idxs -> mvin t !! j = mvin rawTx !! j.
Proof.
  revert rawTx strError. induction idxs as [|i idxs IH]; intros rawTx strError.
  - cbn. auto.
  - cbn [for_each].
    pose proof (sign_visit_frame view i rawTx strError) as Hstep.
    destruct (sign_visit view i (rawTx, strError)) as [[t1 e1]|[t1 e1]];
      cbn [flow_state fst] in Hstep |- *; destruct Hstep as (Hp & Ho & Hj).
    + specialize (IH t1 e1). cbv zeta in IH. destruct IH as (Hp' & Ho' & Hj').
      split; [congruence|]. split; [congruence|].
      intros j Hnot. rewrite Hj' by (intros Hin; apply Hnot; now right).
      apply Hj. intros ->. apply Hnot. now left.
    + split; [exact Hp|]. split; [exact Ho|].
      intros j Hnot. apply Hj. intros ->. apply Hnot. now left.
Qed.

(** A loop that runs to its end met no spent or missing coin, and left
    the message alone. *)
Lemma sign_loop_next (view : CoinsCache) (idxs : list nat)
    (rawTx rawTx' : CMutableTransaction) (strError strError' : string) :
  for_each (sign_visit view) idxs (rawTx, strError) = Next (rawTx', strError') ->
  strError' = strError
  /\ forall i : nat, In i idxs ->
       IsSpent (cached view (nth i (prevouts rawTx) (mkOutPoint 0 0))) = false.
Proof.
  revert rawTx. induction idxs as [|i idxs IH]; intros rawTx Hrun.
  - cbn in Hrun. injection Hrun as _ <-. split; [reflexivity | intros i []].
  - cbn [for_each] in Hrun.
    destruct (IsSpent (cached view (nth i (prevouts rawTx) (mkOutPoint 0 0))))
      eqn:Hspent.
    + rewrite sign_visit_unavailable in Hrun by exact Hspent. discriminate.
    + destruct (sign_visit_available view i rawTx strError Hspent)
        as (t1 & Hp1 & [Hn|[se Hd]]).
      * rewrite Hn in Hrun. destruct (IH t1 Hrun) as [-> Hall].
        split; [reflexivity|]. intros j [<-|Hj]; [exact Hspent|].
        rewrite <- Hp1. now apply Hall.
      * rewrite Hd in Hrun. discriminate.
Qed.

(** One turn of the loop on an input whose coin is there: the input is
    signed, and the verifier decides between going on and returning. *)
Lemma sign_visit_signed (view : CoinsCache) (i : nat)
    (rawTx : CMutableTransaction) (strError : string) :
  IsSpent (input_coin view rawTx i) = false ->
  sign_visit view i (rawTx, strError)
  = if fst (verified_at view rawTx i)
    then Next (signed_at view rawTx i, strError)
    else Done (signed_at view rawTx i,
               ScriptErrorString (snd (verified_at view rawTx i))).
Proof.
  unfold sign_visit, verified_at, signed_at, input_coin, cached.
  intros Hthere. rewrite Hthere.
  match goal with
  | |- context [VerifyScript ?a ?b ?t ?j ?v] =>
    destruct (VerifyScript a b t j v) as [ok serror]
  end.
  destruct ok; reflexivity.
Qed.

Lemma signed_at_prevouts (view : CoinsCache) (rawTx : CMutableTransaction)
    (i : nat) :
  prevouts (signed_at view rawTx i) = prevouts rawTx.
Proof.
  unfold signed_at. rewrite set_scriptSig_prevouts.
  destruct (_ || _); [apply set_scriptSig_prevouts | reflexivity].
Qed.

(** The loop over inputs whose coins are all there runs to its end
    exactly when the verifier accepts each input in turn. *)
Lemma sign_loop_verified (view : CoinsCache) (idxs : list nat)
    (rawTx : CMutableTransaction) (strError : string) :
  (forall i : nat, In i idxs ->
     IsSpent (cached view (nth i (prevouts rawTx) (mkOutPoint 0 0))) = false) ->
  if verifies_all view idxs rawTx
  then for_each (sign_visit view) idxs (rawTx, strError)
       = Next (signed_all view idxs rawTx, strError)
  else exists (t : CMutableTransaction) (e : string),
         for_each (sign_visit view) idxs (rawTx, strError) = Done (t, e).
Proof.
  revert rawTx. induction idxs as [|i idxs IH]; intros rawTx Hall.
  - reflexivity.
  - cbn [verifies_all for_each signed_all fold_left].
    rewrite sign_visit_signed
      by (unfold input_coin; rewrite nth_prevout; apply Hall; now left).
    destruct (fst (verified_at view rawTx i)); cbn [andb].
    + apply IH. intros j Hj. rewrite signed_at_prevouts. apply Hall. now right.
    + eauto.
Qed.

(** What the loop reads from the cache for an input of the transaction. *)
Lemma cached_input (viewAll : COutPoint -> option Coin)
    (rawTx : CMutableTransaction) (j : nat) (txj : CTxIn) :
  mvin rawTx !! j = Some txj ->
  cached (prefetch viewAll (mvin rawTx) ∅)
         (nth j (prevouts rawTx) (mkOutPoint 0 0))
  = coin_of viewAll (prevout txj).
Proof.
  intros Hj. unfold prevouts.
  rewrite (nth_lookup_Some _ _ _ (prevout txj))
    by (rewrite list_lookup_fmap, Hj; reflexivity).
  apply cached_prefetch. apply list_elem_of_In.
  eapply list_elem_of_lookup_2. exact Hj.
Qed.

(** X12.  [SignTokenTransaction] never changes which outputs the inputs
    spend, nor the outputs of the transaction, nor the number of inputs.
    It returns true only if no input's previous output is missing or
    spent, and then [strError] is "No error". *)
Theorem SignTokenTransaction_outcome (viewAll : COutPoint -> option Coin)
    (rawTx : CMutableTransaction) (strError : string) :
  let result := SignTokenTransaction viewAll rawTx strError in
  prevouts (snd (fst result)) = prevouts rawTx
  /\ mvout (snd (fst result)) = mvout rawTx
  /\ length (mvin (snd (fst result))) = length (mvin rawTx)
  /\ (fst (fst result) = true ->
      snd result = "No error"%string
      /\ existsb (unavailable viewAll) (mvin rawTx) = false).
Proof.
  intros result. subst result. unfold SignTokenTransaction, sign_inputs.
  set (view := prefetch viewAll (mvin rawTx) ∅).
  pose proof (sign_loop_frame view (seq 0 (length (mvin rawTx))) rawTx "No error")
    as Hframe. cbv zeta in Hframe.
  destruct (for_each (sign_visit view) (seq 0 (length (mvin rawTx)))
              (rawTx, "No error"%string)) as [[t e]|[t e]] eqn:Hrun;
    cbn [flow_state fst snd] in Hframe |- *;
    destruct Hframe as (Hp & Ho & _).
  - split; [exact Hp|]. split; [exact Ho|].
    split; [unfold prevouts in Hp; apply (f_equal (@length COutPoint)) in Hp;
            now rewrite !length_map in Hp|].
    intros _. destruct (sign_loop_next view _ _ _ _ _ Hrun) as [-> Hall].
    split; [reflexivity|].
    apply not_true_is_false. intros Hex.
    apply existsb_exists in Hex as (txin & Hin & Hbad).
    apply list_elem_of_In, list_elem_of_lookup in Hin as [j Hj].
    specialize (Hall j). unfold view in Hall.
    rewrite (cached_input viewAll rawTx j txin Hj) in Hall.
    unfold unavailable in Hbad. rewrite Hall in Hbad; [discriminate|].
    apply in_seq. apply lookup_lt_Some in Hj. lia.
  - split; [exact Hp|]. split; [exact Ho|].
    split; [unfold prevouts in Hp; apply (f_equal (@length COutPoint)) in Hp;
            now rewrite !length_map in Hp|].
    discriminate.
Qed.

(** X13.  When every input's previous output is there and unspent,
    [SignTokenTransaction] returns true exactly when the script verifier
    accepts each input as the loop reaches it, that is, on the
    transaction signed up to and including that input; it then hands
    back the transaction with every input signed in turn and
    "No error". *)
Theorem SignTokenTransaction_accepting (viewAll : COutPoint -> option Coin)
    (rawTx : CMutableTransaction) (strError : string) :
  existsb (unavailable viewAll) (mvin rawTx) = false ->
  let view := prefetch viewAll (mvin rawTx) ∅ in
  let idxs := seq 0 (length (mvin rawTx)) in
  fst (fst (SignTokenTransaction viewAll rawTx strError))
  = verifies_all view idxs rawTx
  /\ (verifies_all view idxs rawTx = true ->
      SignTokenTransaction viewAll rawTx strError
      = (true, signed_all view idxs rawTx, "No error"%string)).
Proof.
  intros Hnone view idxs. unfold SignTokenTransaction, sign_inputs.
  fold view idxs.
  pose proof (sign_loop_verified view idxs rawTx "No error") as Hloop.
  assert (Hall : forall i : nat, In i idxs ->
             IsSpent (cached view (nth i (prevouts rawTx) (mkOutPoint 0 0)))
             = false).
  { intros j Hj. apply in_seq in Hj.
    destruct (lookup_lt_is_Some_2 (mvin rawTx) j) as [txj Hj']; [lia|].
    unfold view. rewrite (cached_input viewAll rawTx j txj Hj').
    apply not_true_is_false. intros Hbad.
    assert (existsb (unavailable viewAll) (mvin rawTx) = true).
    { apply existsb_exists. exists txj. split; [|exact Hbad].
      apply list_elem_of_In. eapply list_elem_of_lookup_2. exact Hj'. }
    congruence. }
  specialize (Hloop Hall).
  destruct (verifies_all view idxs rawTx).
  - rewrite Hloop. split; [reflexivity | intros _; reflexivity].
  - destruct Hloop as (t & e & ->). split; [reflexivity | discriminate].
Qed.

(** X14.  When some input's previous output is missing or spent, that
    input and every input after it come back exactly as they were given:
    the loop never gets past the first such input. *)
Theorem SignTokenTransaction_later_inputs_untouched
    (viewAll : COutPoint -> option Coin) (rawTx : CMutableTransaction)
    (strError : string) (j : nat) :
  existsb (unavailable viewAll) (mvin rawTx) = true ->
  (first_unavailable viewAll (mvin rawTx) <= j)%nat ->
  mvin (snd (fst (SignTokenTransaction viewAll rawTx strError))) !! j
  = mvin rawTx !! j.
Proof.
  intros Hex Hj.
  destruct (first_unavailable_spec viewAll (mvin rawTx) Hex)
    as (txin & Hk & Hbad & Hbefore).
  set (k := first_unavailable viewAll (mvin rawTx)) in *.
  assert (Hlen : (k < length (mvin rawTx))%nat)
    by (apply lookup_lt_is_Some; eauto).
  unfold SignTokenTransaction, sign_inputs.
  set (view := prefetch viewAll (mvin rawTx) ∅).
  replace (length (mvin rawTx)) with (k + S (length (mvin rawTx) - S k))%nat by lia.
  rewrite seq_app, for_each_app. change (0 + k)%nat with k. cbn [seq].
  pose proof (sign_loop_frame view (seq 0 k) rawTx "No error") as Hframe.
  cbv zeta in Hframe.
  destruct (for_each (sign_visit view) (seq 0 k) (rawTx, "No error"%string))
    as [[t e]|[t e]]; cbn [flow_state fst] in Hframe;
    destruct Hframe as (Hp & _ & Hother).
  - cbn [for_each]. rewrite sign_visit_unavailable.
    + cbn [fst snd]. apply Hother. intros Hin. apply in_seq in Hin. lia.
    + rewrite Hp. unfold view. rewrite (cached_input viewAll rawTx k txin Hk).
      exact Hbad.
  - cbn [fst snd]. apply Hother. intros Hin. apply in_seq in Hin. lia.
Qed.

End SigningMore.

(* ================================================================== *)
(** * More about the storage score keeper *)
(* ================================================================== *)

Section BehaviorMore.

Import Behavior BehaviorView.

Variables SCORE_INCREASE SCORE_DECREASE : Z.
Variable blank : NodeHistory.

Lemma existsb_snoc {A : Type} (f : A -> bool) (l : list A) (x : A) :
  existsb f (l ++ [x]) = existsb f l || f x.
Proof. rewrite existsb_app. simpl. now rewrite orb_false_r. Qed.

(** X15.  [SetSeen] records a height once: afterwards [HaveSeen] answers
    true for that height and as before for every other height; heights
    already recorded are not recorded again, so a list without repetition
    stays without repetition; the stored nodes are not touched. *)
Theorem SetSeen_then_HaveSeen (h h' : Z) (s : CNodeBehavior) :
  HaveSeen h' (SetSeen h s) = (h =? h') || HaveSeen h' s
  /\ SetSeen h (SetSeen h s) = SetSeen h s
  /\ nodes (SetSeen h s) = nodes s
  /\ (NoDup (seen s) -> NoDup (seen (SetSeen h s))).
Proof.
  assert (Hflip : forall l : list Z,
             existsb (Z.eqb h) l = existsb (fun x => x =? h) l).
  { intros l. induction l as [|x l IH]; simpl; [reflexivity|].
    now rewrite IH, (Z.eqb_sym h x). }
  unfold SetSeen, HaveSeen.
  destruct (existsb (Z.eqb h) (seen s)) eqn:Hin.
  - rewrite Hin. repeat split; try tauto.
    destruct (Z.eqb_spec h h') as [<-|Hne]; [|reflexivity].
    now rewrite <- Hflip, Hin.
  - cbn [seen nodes]. split; [|split; [|split]].
    + rewrite existsb_snoc. apply orb_comm.
    + now rewrite existsb_snoc, Hin, Z.eqb_refl.
    + reflexivity.
    + intros Hnd. apply NoDup_app. split; [exact Hnd|].
      split; [|apply NoDup_singleton].
      intros x Hx Hx'. apply list_elem_of_singleton in Hx'. subst x.
      assert (existsb (Z.eqb h) (seen s) = true).
      { apply existsb_exists. exists h. split; [|apply Z.eqb_refl].
        now apply list_elem_of_In. }
      congruence.
Qed.

Lemma HaveNode_in_app (ip0 : Z) (l1 l2 : list NodeHistory) :
  HaveNode_in ip0 (l1 ++ l2) = HaveNode_in ip0 l1 || HaveNode_in ip0 l2.
Proof.
  induction l1 as [|x l1 IH]; simpl; [reflexivity|].
  destruct (ipaddr x =? ip0); [reflexivity | exact IH].
Qed.

Lemma ReturnNode_in_first (ip0 : Z) (ns : list NodeHistory) :
  HaveNode_in ip0 ns = true ->
  exists (pre post : list NodeHistory),
    ns = pre ++ ReturnNode_in blank ip0 ns :: post
    /\ HaveNode_in ip0 pre = false
    /\ ipaddr (ReturnNode_in blank ip0 ns) = ip0.
Proof.
  induction ns as [|x ns IH]; simpl; [discriminate|].
  destruct (Z.eqb_spec (ipaddr x) ip0) as [Heq|Hne].
  - intros _. exists [], ns. repeat split. exact Heq.
  - intros Hhave. destruct (IH Hhave) as (pre & post & Hns & Hpre & Hip).
    exists (x :: pre), post. simpl.
    destruct (Z.eqb_spec (ipaddr x) ip0); [contradiction|].
    repeat split; [now rewrite <- Hns | exact Hpre | exact Hip].
Qed.

Lemma ReturnNode_in_absent (ip0 : Z) (ns : list NodeHistory) :
  HaveNode_in ip0 ns = false -> ReturnNode_in blank ip0 ns = blank.
Proof.
  induction ns as [|x ns IH]; simpl; [reflexivity|].
  destruct (ipaddr x =? ip0); [discriminate | exact IH].
Qed.

(** X16.  [HaveNode] answers true exactly for the addresses of the stored
    nodes, [AddNode] included.  When it answers true, [ReturnNode] hands
    back the first stored node with that address; when it answers false,
    [ReturnNode] hands back the uninitialised record. *)
Theorem HaveNode_ReturnNode (ip0 : Z) (i : NodeHistory) (s : CNodeBehavior) :
  (HaveNode ip0 s = true <-> exists l, In l (nodes s) /\ ipaddr l = ip0)
  /\ HaveNode ip0 (AddNode i s) = HaveNode ip0 s || (ipaddr i =? ip0)
  /\ (HaveNode ip0 s = true ->
      exists (pre post : list NodeHistory),
        nodes s = pre ++ ReturnNode blank ip0 s :: post
        /\ HaveNode_in ip0 pre = false
        /\ ipaddr (ReturnNode blank ip0 s) = ip0)
  /\ (HaveNode ip0 s = false -> ReturnNode blank ip0 s = blank).
Proof.
  unfold HaveNode, ReturnNode, AddNode; cbn [nodes].
  split; [|split; [|split]].
  - induction (nodes s) as [|x ns IH]; simpl.
    + split; [discriminate | intros (l & [] & _)].
    + destruct (Z.eqb_spec (ipaddr x) ip0) as [Heq|Hne].
      * split; [intros _; exists x; split; [now left | exact Heq] | reflexivity].
      * rewrite IH. split.
        -- intros (l & Hl & Hip). exists l. split; [now right | exact Hip].
        -- intros (l & [->|Hl] & Hip); [contradiction|]. now exists l.
  - rewrite HaveNode_in_app. simpl.
    now destruct (ipaddr i =? ip0).
  - apply ReturnNode_in_first.
  - apply ReturnNode_in_absent.
Qed.

Lemma ReplaceNode_in_positions (i : NodeHistory) (ns : list NodeHistory) :
  length (snd (ReplaceNode_in i ns)) = length ns
  /\ forall (k : nat) (l' : NodeHistory),
       snd (ReplaceNode_in i ns) !! k = Some l' ->
       l' = i
       \/ exists l : NodeHistory,
            ns !! k = Some l /\ space l' = space l /\ health l' = health l.
Proof.
  induction ns as [|x ns IH]; [split; [reflexivity | intros k l' Hk; discriminate]|].
  cbn [ReplaceNode_in ipaddr].
  destruct (negb (ipaddr i =? 0)).
  - cbn [snd]. split; [reflexivity|].
    intros [|k] l' Hk; simpl in Hk.
    + left. now injection Hk as <-.
    + right. exists l'. now repeat split.
  - destruct (ReplaceNode_in i ns) as [r rest]. cbn [snd] in *.
    destruct IH as [Hlen Hpos]. split; [simpl; now rewrite Hlen|].
    intros [|k] l' Hk; simpl in Hk.
    + right. exists x. injection Hk as <-. now repeat split.
    + apply Hpos. exact Hk.
Qed.

(** X17.  [ReplaceNode] never changes how many nodes are stored nor the
    seen heights; a node stored afterwards is the record passed in, or has
    the space and the health of the node stored at that place before.  On
    an empty list it returns false. *)
Theorem ReplaceNode_frame (i : NodeHistory) (s : CNodeBehavior) :
  length (nodes (snd (ReplaceNode i s))) = length (nodes s)
  /\ seen (snd (ReplaceNode i s)) = seen s
  /\ (forall (k : nat) (l' : NodeHistory),
         nodes (snd (ReplaceNode i s)) !! k = Some l' ->
         l' = i
         \/ exists l : NodeHistory,
              nodes s !! k = Some l /\ space l' = space l
              /\ health l' = health l)
  /\ (nodes s = [] -> ReplaceNode i s = (false, s)).
Proof.
  unfold ReplaceNode.
  pose proof (ReplaceNode_in_positions i (nodes s)) as [Hlen Hpos].
  split; [|split; [|split]].
  - revert Hlen. destruct (ReplaceNode_in i (nodes s)). cbn [snd nodes]. tauto.
  - destruct (ReplaceNode_in i (nodes s)). reflexivity.
  - revert Hpos. destruct (ReplaceNode_in i (nodes s)). cbn [snd nodes]. tauto.
  - intros Hnil. rewrite Hnil. cbn [ReplaceNode_in].
    destruct s as [ns sn]. simpl in Hnil. subst ns. reflexivity.
Qed.

(** One turn of the loop over the proof keeps the seen heights and adds at
    most one node. *)
Lemma proof_visit_shape (i : StorageNode.t) (st : ProofState) :
  seen (fst (fst (proof_visit SCORE_INCREASE blank i st))) = seen (fst (fst st))
  /\ (length (nodes (fst (fst st)))
      <= length (nodes (fst (fst (proof_visit SCORE_INCREASE blank i st))))
      <= S (length (nodes (fst (fst st)))))%nat.
Proof.
  destruct st as [[s in2] seen_nodes]. cbn [fst]. unfold proof_visit.
  set (created := {| ipaddr := StorageNode.ip i;
                     space := StorageNode.space i; health := 100 |}).
  assert (Hadd : seen (AddNode created s) = seen s
                 /\ length (nodes (AddNode created s)) = S (length (nodes s))).
  { unfold AddNode; cbn [seen nodes]. rewrite length_app. simpl. split; [reflexivity | lia]. }
  destruct (negb (HaveNode (StorageNode.ip i) s)).
  - destruct Hadd as [Hs Hl]. revert Hs Hl.
    generalize (AddNode created s). intros s1 Hs Hl.
    destruct (HaveNode (StorageNode.ip i) s1); cbn [fst].
    + match goal with
      | |- context [ReplaceNode ?x s1] =>
        destruct (ReplaceNode_frame x s1) as (Hlen & Hseen & _)
      end.
      rewrite Hlen, Hseen. split; [exact Hs | lia].
    + split; [exact Hs | lia].
  - destruct (HaveNode (StorageNode.ip i) s); cbn [fst].
    + match goal with
      | |- context [ReplaceNode ?x s] =>
        destruct (ReplaceNode_frame x s) as (Hlen & Hseen & _)
      end.
      rewrite Hlen, Hseen. split; [reflexivity | lia].
    + split; [reflexivity | lia].
Qed.

Lemma proof_loop_shape (ps : list StorageNode.t) (st : ProofState) :
  let st' := fold_left (fun st i => proof_visit SCORE_INCREASE blank i st) ps st in
  seen (fst (fst st')) = seen (fst (fst st))
  /\ (length (nodes (fst (fst st))) <= length (nodes (fst (fst st')))
      <= length (nodes (fst (fst st))) + length ps)%nat.
Proof.
  revert st. induction ps as [|i ps IH]; intros st; cbn [fold_left length].
  - split; [reflexivity | lia].
  - specialize (IH (proof_visit SCORE_INCREASE blank i st)). cbv zeta in IH.
    destruct IH as [Hs Hl].
    destruct (proof_visit_shape i st) as [Hs1 Hl1].
    split; [congruence | lia].
Qed.

Lemma AddProof_shape (netproof : CNetworkProof) (s : CNodeBehavior) :
  seen (AddProof SCORE_INCREASE SCORE_DECREASE blank netproof s) = seen s
  /\ (length (nodes s)
      <= length (nodes (AddProof SCORE_INCREASE SCORE_DECREASE blank netproof s))
      <= length (nodes s) + length (proof_nodes netproof))%nat.
Proof.
  unfold AddProof. destruct (HaveSeen (height netproof) s).
  - split; [reflexivity | lia].
  - generalize (proof_loop_shape (proof_nodes netproof) (s, blank, [])).
    cbv zeta. unfold ProofState.
    match goal with
    | |- context [fold_left ?f ?l ?a] =>
      destruct (fold_left f l a) as [[s1 in2] seen_nodes]
    end.
    cbn [fst seen nodes]. rewrite length_map. tauto.
Qed.

(** X18.  [AddProof] never records the height of the proof: the seen
    heights are the same before and after, so a proof that was applied is
    applied again when it is handed in again.  The number of stored nodes
    never goes down and grows by at most one per node of the proof; which
    records are stored may change, since a replaced record is overwritten
    in place. *)
Theorem AddProof_seen_and_count (netproof : CNetworkProof) (s : CNodeBehavior) :
  let s' := AddProof SCORE_INCREASE SCORE_DECREASE blank netproof s in
  seen s' = seen s
  /\ (forall h : Z, HaveSeen h s' = HaveSeen h s)
  /\ (length (nodes s) <= length (nodes s')
      <= length (nodes s) + length (proof_nodes netproof))%nat.
Proof.
  cbv zeta. destruct (AddProof_shape netproof s) as [Hseen Hlen].
  split; [exact Hseen|]. split; [|exact Hlen].
  intros h. unfold HaveSeen. now rewrite Hseen.
Qed.

End BehaviorMore.

Section BehaviorRanges.

Import Behavior BehaviorView.

Variables SCORE_INCREASE SCORE_DECREASE : Z.
Variable blank : NodeHistory.

Hypothesis increase_range : 0 <= SCORE_INCREASE <= INT_MAX - 100.
Hypothesis decrease_range : 0 <= SCORE_DECREASE <= INT_MAX.

(** X19.  A proof of an unseen height that names no node lowers the health
    of every stored node by SCORE_DECREASE, stopping at zero, and leaves
    addresses and space alone. *)
Theorem AddProof_without_nodes (netproof : CNetworkProof) (s : CNodeBehavior) :
  proof_nodes netproof = [] ->
  HaveSeen (height netproof) s = false ->
  healthy (nodes s) ->
  nodes (AddProof SCORE_INCREASE SCORE_DECREASE blank netproof s)
  = map (fun l => mkNode (ipaddr l) (space l)
                         (Z.max 0 (health l - SCORE_DECREASE)))
        (nodes s).
Proof.
  intros Hnone Hunseen Hs. unfold AddProof. rewrite Hunseen, Hnone.
  cbn [fold_left nodes]. unfold healthy in Hs.
  induction Hs as [|l ns Hl Hns IH]; [reflexivity|].
  cbn [map]. rewrite IH. f_equal.
  unfold decay_visit. cbn [existsb].
  rewrite (int_sub_exact SCORE_DECREASE decrease_range) by exact Hl.
  f_equal. destruct (Z.ltb_spec (health l - SCORE_DECREASE) 0); lia.
Qed.

Lemma AddProof_fold_healthy (proofs : list CNetworkProof) (s : CNodeBehavior) :
  healthy (nodes s) ->
  healthy (nodes (fold_left
                    (fun st p => AddProof SCORE_INCREASE SCORE_DECREASE blank p st)
                    proofs s)).
Proof.
  revert s. induction proofs as [|p proofs IH]; intros s Hs; [exact Hs|].
  cbn [fold_left]. apply IH. unfold AddProof.
  destruct (HaveSeen (height p) s); [exact Hs|].
  generalize (proof_loop_healthy SCORE_INCREASE SCORE_DECREASE blank
                increase_range decrease_range (proof_nodes p) (s, blank, []) Hs).
  unfold ProofState.
  match goal with
  | |- context [fold_left ?f ?l ?a] =>
    destruct (fold_left f l a) as [[s1 in2] seen_nodes]
  end.
  cbn [fst nodes]. intros Hl. unfold healthy in *.
  rewrite Forall_map. eapply Forall_impl; [exact Hl|].
  intros l Hlh. now apply (decay_visit_healthy SCORE_DECREASE decrease_range).
Qed.

(** X20.  [Init] forgets the stored nodes but not the seen heights.  When
    the chain is no higher than the last proof-of-work block no node is
    stored afterwards; otherwise the proofs of the blocks above it are
    applied in order of height, and every stored health is within
    [0, 100]. *)
Theorem Init_rebuilds_scores (start_height nLastPoWBlock : Z)
    (netProofAt : Z -> CNetworkProof) (s : CNodeBehavior) :
  let s' := Init SCORE_INCREASE SCORE_DECREASE blank start_height nLastPoWBlock
                 netProofAt s in
  seen s' = seen s
  /\ healthy (nodes s')
  /\ (start_height <= nLastPoWBlock -> nodes s' = [])
  /\ s' = fold_left
            (fun st p => AddProof SCORE_INCREASE SCORE_DECREASE blank p st)
            (map netProofAt (heights_between (nLastPoWBlock + 1) start_height))
            {| nodes := []; seen := seen s |}.
Proof.
  cbv zeta.
  assert (Hfold : Init SCORE_INCREASE SCORE_DECREASE blank start_height
                    nLastPoWBlock netProofAt s
                  = fold_left
                      (fun st p => AddProof SCORE_INCREASE SCORE_DECREASE blank p st)
                      (map netProofAt
                         (heights_between (nLastPoWBlock + 1) start_height))
                      {| nodes := []; seen := seen s |}).
  { unfold Init. destruct (Z.leb_spec start_height nLastPoWBlock) as [Hle|Hgt].
    - unfold heights_between.
      replace (Z.to_nat (start_height - (nLastPoWBlock + 1) + 1)) with 0%nat by lia.
      reflexivity.
    - generalize (heights_between (nLastPoWBlock + 1) start_height).
      intros hs. generalize {| nodes := []; seen := seen s |}.
      induction hs as [|h hs IH]; intros st; [reflexivity|]. apply IH. }
  split; [|split; [|split]].
  - rewrite Hfold.
    generalize (map netProofAt (heights_between (nLastPoWBlock + 1) start_height)).
    intros proofs.
    change (seen s) with (seen {| nodes := []; seen := seen s |}) at 2.
    generalize {| nodes := []; seen := seen s |}.
    induction proofs as [|p proofs IH]; intros st; [reflexivity|].
    cbn [fold_left]. rewrite IH.
    apply (AddProof_shape SCORE_INCREASE SCORE_DECREASE blank p st).
  - rewrite Hfold. apply AddProof_fold_healthy. constructor.
  - intros Hle. unfold Init.
    destruct (Z.leb_spec start_height nLastPoWBlock); [reflexivity | lia].
  - exact Hfold.
Qed.

End BehaviorRanges.

Section InitHeights.

Import Behavior.

(** The heights [Init] visits are those from [first] to [last], each once,
    in increasing order. *)
Lemma heights_between_spec (first last h : Z) :
  In h (heights_between first last) <-> first <= h <= last.
Proof.
  unfold heights_between. rewrite in_map_iff. split.
  - intros (k & <- & Hk). apply in_seq in Hk. lia.
  - intros Hh. exists (Z.to_nat (h - first)). split; [lia|].
    apply in_seq. lia.
Qed.

End InitHeights.

(* ================================================================== *)
(** * More about the token record *)
(* ================================================================== *)

Section TokenMore.

(** X21.  [operator==] on token records is an equivalence: every record
    equals itself, the answer does not depend on the order of the two
    sides, and it is transitive.  No record is both an issuance and a
    transfer. *)
Theorem token_eq_equivalence :
  (forall a : CToken, token_eq a a = true)
  /\ (forall a b : CToken, token_eq a b = token_eq b a)
  /\ (forall a b c : CToken,
         token_eq a b = true -> token_eq b c = true -> token_eq a c = true)
  /\ (forall a : CToken, isIssuance a && isTransfer a = false).
Proof.
  unfold token_eq, getId, getName. split; [|split; [|split]].
  - intros a. now rewrite Z.eqb_refl, String.eqb_refl.
  - intros a b. now rewrite Z.eqb_sym, String.eqb_sym.
  - intros a b c. rewrite !andb_true_iff, !Z.eqb_eq, !String.eqb_eq.
    intros [-> ->] [-> ->]. split; reflexivity.
  - intros a. unfold isIssuance, isTransfer, getType, ISSUANCE, TRANSFER.
    destruct (Z.eqb_spec (type a) 1) as [->|]; reflexivity.
Qed.

End TokenMore.

(* ================================================================== *)
(** * The registry of quorum types *)
(* ================================================================== *)

Section LLMQFacts.

Import ChainParams.

Variable LLMQParams : Type.
Variable llmq_type : LLMQParams -> Z.
Variable available_llmqs : list LLMQParams.

Local Abbreviation Has := (HasLLMQ LLMQParams llmq_type).
Local Abbreviation Get := (GetLLMQ LLMQParams llmq_type).
Local Abbreviation Add := (AddLLMQ LLMQParams llmq_type available_llmqs).

Lemma HasLLMQ_app (t : Z) (l1 l2 : list LLMQParams) :
  Has t (l1 ++ l2) = Has t l1 || Has t l2.
Proof.
  induction l1 as [|x l1 IH]; simpl; [reflexivity|].
  destruct (llmq_type x =? t); [reflexivity | exact IH].
Qed.

Lemma GetLLMQ_app (t : Z) (l1 l2 : list LLMQParams) :
  Get t (l1 ++ l2) = if Has t l1 then Get t l1 else Get t l2.
Proof.
  induction l1 as [|x l1 IH]; simpl; [reflexivity|].
  destruct (llmq_type x =? t); [reflexivity | exact IH].
Qed.

Lemma HasLLMQ_In (t : Z) (l : list LLMQParams) :
  Has t l = true <-> exists p, In p l /\ llmq_type p = t.
Proof.
  induction l as [|x l IH]; simpl.
  - split; [discriminate | intros (p & [] & _)].
  - destruct (Z.eqb_spec (llmq_type x) t) as [Heq|Hne].
    + split; [intros _; exists x; split; [now left | exact Heq] | reflexivity].
    + rewrite IH. split.
      * intros (p & Hp & Ht). exists p. split; [now right | exact Ht].
      * intros (p & [->|Hp] & Ht); [contradiction|]. now exists p.
Qed.

Lemma AddLLMQ_from_Some (t : Z) (available llmqs llmqs' : list LLMQParams) :
  AddLLMQ_from LLMQParams llmq_type t available llmqs = Some llmqs' ->
  exists p, llmqs' = llmqs ++ [p] /\ llmq_type p = t /\ In p available.
Proof.
  induction available as [|x available IH]; simpl; [discriminate|].
  destruct (Z.eqb_spec (llmq_type x) t) as [Heq|Hne].
  - intros [= <-]. exists x. repeat split; [exact Heq | now left].
  - intros Hadd. destruct (IH Hadd) as (p & Hl & Ht & Hin).
    exists p. repeat split; [exact Hl | exact Ht | now right].
Qed.

Lemma AddLLMQ_from_None (t : Z) (available llmqs : list LLMQParams) :
  AddLLMQ_from LLMQParams llmq_type t available llmqs = None <->
  Has t available = false.
Proof.
  induction available as [|x available IH]; simpl; [tauto|].
  destruct (llmq_type x =? t); [split; discriminate | exact IH].
Qed.

(** X22.  After [AddLLMQ] has added a quorum type, [HasLLMQ] answers true
    for it and [GetLLMQ] hands back the entry of the table that was
    added; the type was not registered before, the entry goes to the end,
    and the answers for every other type are as before. *)
Theorem AddLLMQ_then_lookup (t : Z) (llmqs llmqs' : list LLMQParams) :
  Add t llmqs = Some llmqs' ->
  Has t llmqs = false
  /\ exists p : LLMQParams,
       llmqs' = llmqs ++ [p]
       /\ llmq_type p = t
       /\ In p available_llmqs
       /\ Has t llmqs' = true
       /\ Get t llmqs' = Some p
       /\ forall t' : Z, t' <> t ->
            Has t' llmqs' = Has t' llmqs /\ Get t' llmqs' = Get t' llmqs.
Proof.
  unfold AddLLMQ. destruct (Has t llmqs) eqn:Hhas; [discriminate|].
  intros Hadd. split; [reflexivity|].
  destruct (AddLLMQ_from_Some t available_llmqs llmqs llmqs' Hadd)
    as (p & -> & Ht & Hin).
  exists p. rewrite HasLLMQ_app, GetLLMQ_app, Hhas. simpl.
  rewrite Ht, Z.eqb_refl. repeat split; try assumption.
  - rewrite HasLLMQ_app. simpl. rewrite Ht.
    destruct (Z.eqb_spec t t') as [<-|_]; [contradiction|].
    now rewrite orb_false_r.
  - rewrite GetLLMQ_app. simpl. rewrite Ht.
    destruct (Z.eqb_spec t t') as [<-|_]; [contradiction|].
    destruct (Has t' llmqs) eqn:Hh'; [reflexivity|].
    symmetry. clear -Hh'. induction llmqs as [|x l IH]; simpl in *; [reflexivity|].
    destruct (llmq_type x =? t'); [discriminate | now apply IH].
Qed.

(** X23.  [AddLLMQ] stops on a failed assertion exactly when the type is
    registered already or the table of available quorums has no entry of
    that type; [GetLLMQ] does so exactly when [HasLLMQ] answers false, and
    otherwise hands back a registered entry of the type asked for. *)
Theorem LLMQ_assertions (t : Z) (llmqs : list LLMQParams) :
  (Add t llmqs = None <-> Has t llmqs = true \/ Has t available_llmqs = false)
  /\ (Get t llmqs = None <-> Has t llmqs = false)
  /\ (forall p : LLMQParams,
         Get t llmqs = Some p -> In p llmqs /\ llmq_type p = t).
Proof.
  split; [|split].
  - unfold AddLLMQ. destruct (Has t llmqs).
    + split; [now left | reflexivity].
    + rewrite AddLLMQ_from_None. split; [now right | intros [|]; [discriminate | assumption]].
  - induction llmqs as [|x l IH]; simpl; [tauto|].
    destruct (llmq_type x =? t); [split; discriminate | exact IH].
  - induction llmqs as [|x l IH]; simpl; [discriminate|].
    destruct (Z.eqb_spec (llmq_type x) t) as [Heq|Hne].
    + intros p [= <-]. split; [now left | exact Heq].
    + intros p Hp. destruct (IH p Hp) as [Hin Ht]. split; [now right | exact Ht].
Qed.

(** X24.  [AddLLMQ] keeps the registered quorum types pairwise
    different. *)
Theorem AddLLMQ_keeps_types_distinct (t : Z) (llmqs llmqs' : list LLMQParams) :
  NoDup (map llmq_type llmqs) ->
  Add t llmqs = Some llmqs' ->
  NoDup (map llmq_type llmqs').
Proof.
  intros Hnd Hadd. unfold AddLLMQ in Hadd.
  destruct (Has t llmqs) eqn:Hhas; [discriminate|].
  destruct (AddLLMQ_from_Some t available_llmqs llmqs llmqs' Hadd)
    as (p & -> & Ht & _).
  rewrite map_app. apply NoDup_app. split; [exact Hnd|].
  split; [|apply NoDup_singleton].
  intros x Hx Hx'. simpl in Hx'. apply list_elem_of_singleton in Hx'. subst x.
  apply list_elem_of_In, in_map_iff in Hx as (q & Hq & Hin).
  assert (Has t llmqs = true)
    by (apply HasLLMQ_In; exists q; split; [exact Hin | congruence]).
  congruence.
Qed.

End LLMQFacts.

(* ================================================================== *)
(** * The further properties on the scenarios *)
(* ================================================================== *)

Section MoreScenarios.

Import Wallet WalletView SignerView Scenario.

Lemma FundMintTransaction_selects_plain_owned_witness :
  exists (wtx : CWalletTx) (idx : nat) (o : CTxOut),
    In wtx (GetSpendableTXs wallet_deep)
    /\ vout (tx wtx) !! idx = Some o
    /\ CTxIn_of (mkOutPoint 7 1)
       = CTxIn_of (mkOutPoint (GetHash (tx wtx)) (Z.of_nat idx))
    /\ IsMine wallet_deep o = true
    /\ IsOutputUnspent wallet_deep (prevout (CTxIn_of (mkOutPoint 7 1))) = true
    /\ IsInMempool wallet_deep (GetHash (tx wtx)) = false
    /\ IsOutputInMempool wallet_deep (prevout (CTxIn_of (mkOutPoint 7 1))) = false
    /\ @IsPayToToken codec_ops (scriptPubKey o) = false
    /\ @IsChecksumData codec_ops (scriptPubKey o) = false.
Proof.
  apply (@FundMintTransaction_selects_plain_owned codec_ops wallet_deep 60 []).
  vm_compute. right. left. reflexivity.
Defined.

Lemma funding_without_eligible_output_witness :
  @FundMintTransaction codec_ops wallet_shallow 40 [] = (false, 0, [])
  /\ @FundTokenTransaction codec_ops wallet_shallow "GOLD" 5 [] = (false, 0, []).
Proof.
  pose proof (@funding_without_eligible_output codec_ops wallet_shallow
                "GOLD" 40 []) as Hmint.
  pose proof (@funding_without_eligible_output codec_ops wallet_shallow
                "GOLD" 5 []) as Htoken.
  split.
  - apply (proj1 Hmint). reflexivity.
  - apply (proj1 (proj2 Htoken)). reflexivity.
Defined.

Lemma funding_succeeds_for_smaller_target_witness :
  fst (fst (@FundMintTransaction codec_ops wallet_deep 40 [])) = true
  /\ snd (@FundMintTransaction codec_ops wallet_deep 40 [])
     `prefix_of` snd (@FundMintTransaction codec_ops wallet_deep 60 []).
Proof.
  assert (Hle : 40 <= 60) by lia.
  apply (proj1 (@funding_succeeds_for_smaller_target codec_ops wallet_deep
                  "GOLD" 60 40 [] Hle)).
  reflexivity.
Defined.

Lemma funding_inputs_distinct_witness :
  NoDup (appended [] (snd (@FundMintTransaction codec_ops wallet_deep 60 []))).
Proof.
  apply (proj1 (@funding_inputs_distinct codec_ops wallet_deep "GOLD" 60 [])).
  apply (bool_decide_unpack _). vm_compute. exact I.
Defined.

Lemma FundMintTransaction_plain_sum_witness :
  exists k : nat,
    snd (@FundMintTransaction codec_ops wallet_deep 60 [])
      = [] ++ map cand_input
                (take k (List.filter (@mint_eligible codec_ops wallet_deep)
                                     (mint_candidates wallet_deep)))
    /\ snd (fst (@FundMintTransaction codec_ops wallet_deep 60 []))
       = total_value
           (take k (List.filter (@mint_eligible codec_ops wallet_deep)
                                (mint_candidates wallet_deep)))
    /\ (fst (fst (@FundMintTransaction codec_ops wallet_deep 60 [])) = true ->
        60 <= total_value
                (take k (List.filter (@mint_eligible codec_ops wallet_deep)
                                     (mint_candidates wallet_deep))))
    /\ (fst (fst (@FundMintTransaction codec_ops wallet_deep 60 [])) = false ->
        k = length (List.filter (@mint_eligible codec_ops wallet_deep)
                                (mint_candidates wallet_deep))
        /\ (List.filter (@mint_eligible codec_ops wallet_deep)
                        (mint_candidates wallet_deep) = []
            \/ total_value (List.filter (@mint_eligible codec_ops wallet_deep)
                                        (mint_candidates wallet_deep)) < 60)).
Proof.
  apply (@FundMintTransaction_plain_sum codec_ops wallet_deep 60 []).
  - vm_compute. repeat constructor; discriminate.
  - vm_compute. reflexivity.
Defined.

Lemma GetUnconfirmedTokenBalance_other_names_witness :
  snd (fst (@GetUnconfirmedTokenBalance codec_ops wallet_all_mine
              pool_issue_transfer ∅ "stale")) !! "SILVER"%string
  = (∅ : gmap string CAmount) !! "SILVER"%string.
Proof.
  apply (@GetUnconfirmedTokenBalance_other_names codec_ops wallet_all_mine
           pool_issue_transfer ∅ "stale" "SILVER").
  intros o Ho. vm_compute in Ho.
  destruct Ho as [<-|[<-|[]]]; vm_compute; discriminate.
Defined.

Lemma GetUnconfirmedTokenBalance_success_witness :
  @GetUnconfirmedTokenBalance codec_ops wallet_all_mine pool_plain ∅ "stale"
  = (true, ∅, "stale"%string).
Proof.
  apply (proj2 (proj2 (@GetUnconfirmedTokenBalance_success codec_ops
                         wallet_all_mine pool_plain ∅ "stale"))).
  reflexivity.
Defined.

Lemma GetUnconfirmedTokenBalance_per_name_witness :
  default 0
    (snd (fst (@GetUnconfirmedTokenBalance codec_ops wallet_all_mine
                 pool_issue_transfer ∅ "stale")) !! "GOLD"%string)
  = fold_left amount_add
      (map nValue
         (List.filter
            (fun o => String.eqb (@checked_name codec_ops o) "GOLD")
            (@owned_token_outputs codec_ops wallet_all_mine pool_issue_transfer)))
      (default 0 ((∅ : gmap string CAmount) !! "GOLD"%string)).
Proof.
  apply (@GetUnconfirmedTokenBalance_per_name codec_ops wallet_all_mine
           pool_issue_transfer ∅ "stale" "GOLD").
  vm_compute. reflexivity.
Defined.

Lemma SignTokenTransaction_outcome_witness :
  snd (@SignTokenTransaction accepting_engine view_one_coin tx_known_only "stale")
    = "No error"%string
  /\ existsb (unavailable view_one_coin) (mvin tx_known_only) = false.
Proof.
  apply (@SignTokenTransaction_outcome accepting_engine view_one_coin
           tx_known_only "stale").
  vm_compute. reflexivity.
Defined.

Lemma SignTokenTransaction_accepting_witness :
  @SignTokenTransaction keyed_engine view_two_coins tx_two_known "stale"
  = (true,
     {| mvin := [ {| prevout := mkOutPoint 21 0; scriptSig := [x30; x44] |};
                  {| prevout := mkOutPoint 22 1; scriptSig := [x30; x44] |} ];
        mvout := [mkTxOut 13 owner_script] |},
     "No error"%string)
  /\ fst (fst (@SignTokenTransaction keyless_engine view_two_coins
                 tx_two_known "stale")) = false.
Proof.
  split.
  - apply (proj2 (@SignTokenTransaction_accepting keyed_engine view_two_coins
                    tx_two_known "stale" eq_refl)).
    vm_compute. reflexivity.
  - apply (proj1 (@SignTokenTransaction_accepting keyless_engine view_two_coins
                    tx_two_known "stale" eq_refl)).
Defined.

Lemma SignTokenTransaction_later_inputs_untouched_witness :
  mvin (snd (fst (@SignTokenTransaction keyed_engine view_one_coin
                    tx_known_then_missing "stale"))) !! 1%nat
  = mvin tx_known_then_missing !! 1%nat.
Proof.
  apply (@SignTokenTransaction_later_inputs_untouched keyed_engine
           view_one_coin tx_known_then_missing "stale" 1%nat).
  - reflexivity.
  - vm_compute. lia.
Defined.

Lemma HaveNode_ReturnNode_witness :
  exists (pre post : list Behavior.NodeHistory),
    Behavior.nodes two_nodes
      = pre ++ Behavior.ReturnNode (Behavior.mkNode 0 0 0) 2 two_nodes :: post
    /\ Behavior.HaveNode_in 2 pre = false
    /\ Behavior.ipaddr (Behavior.ReturnNode (Behavior.mkNode 0 0 0) 2 two_nodes) = 2.
Proof.
  apply (proj1 (proj2 (proj2 (HaveNode_ReturnNode (Behavior.mkNode 0 0 0) 2
                                node_one two_nodes)))).
  reflexivity.
Defined.

Lemma AddProof_without_nodes_witness :
  Behavior.nodes
    (Behavior.AddProof 10 5 (Behavior.mkNode 0 0 0) proof_without_nodes two_nodes)
  = [Behavior.mkNode 1 10 90; Behavior.mkNode 2 20 0].
Proof.
  assert (Hd : 0 <= 5 <= INT_MAX) by (unfold INT_MAX; lia).
  assert (Hs : BehaviorView.healthy (Behavior.nodes two_nodes))
    by (repeat constructor; simpl; lia).
  exact (AddProof_without_nodes 10 5 (Behavior.mkNode 0 0 0) Hd
           proof_without_nodes two_nodes eq_refl eq_refl Hs).
Defined.

Lemma Init_rebuilds_scores_witness :
  Behavior.seen (Behavior.Init 10 5 (Behavior.mkNode 0 0 0) 3 1 proof_at two_nodes)
    = Behavior.seen two_nodes
  /\ BehaviorView.healthy
       (Behavior.nodes
          (Behavior.Init 10 5 (Behavior.mkNode 0 0 0) 3 1 proof_at two_nodes)).
Proof.
  assert (Hi : 0 <= 10 <= INT_MAX - 100) by (unfold INT_MAX; lia).
  assert (Hd : 0 <= 5 <= INT_MAX) by (unfold INT_MAX; lia).
  pose proof (Init_rebuilds_scores 10 5 (Behavior.mkNode 0 0 0) Hi Hd
                3 1 proof_at two_nodes) as Hw.
  cbv zeta in Hw. destruct Hw as (Hseen & Hhealthy & _).
  split; [exact Hseen | exact Hhealthy].
Defined.

Lemma AddLLMQ_then_lookup_witness :
  ChainParams.HasLLMQ (Z * Z) fst 2 [(1, 50)] = false
  /\ exists p : Z * Z,
       [(1, 50); (2, 400)] = [(1, 50)] ++ [p]
       /\ fst p = 2
       /\ In p quorum_table
       /\ ChainParams.HasLLMQ (Z * Z) fst 2 [(1, 50); (2, 400)] = true
       /\ ChainParams.GetLLMQ (Z * Z) fst 2 [(1, 50); (2, 400)] = Some p
       /\ forall t' : Z, t' <> 2 ->
            ChainParams.HasLLMQ (Z * Z) fst t' [(1, 50); (2, 400)]
            = ChainParams.HasLLMQ (Z * Z) fst t' [(1, 50)]
            /\ ChainParams.GetLLMQ (Z * Z) fst t' [(1, 50); (2, 400)]
               = ChainParams.GetLLMQ (Z * Z) fst t' [(1, 50)].
Proof.
  apply (AddLLMQ_then_lookup (Z * Z) fst quorum_table 2 [(1, 50)]
           [(1, 50); (2, 400)]).
  reflexivity.
Defined.

Lemma AddLLMQ_keeps_types_distinct_witness :
  NoDup (map fst [(1, 50); (2, 400)]).
Proof.
  apply (AddLLMQ_keeps_types_distinct (Z * Z) fst quorum_table 2 [(1, 50)]
           [(1, 50); (2, 400)]).
  - apply (bool_decide_unpack _). vm_compute. exact I.
  - reflexivity.
Defined.

End MoreScenarios.

Section TokenFundingMore.

Import Wallet WalletView.
Context `{ScriptOps}.
Variable w : CWallet.

(** X25.  Every input [FundTokenTransaction] pushes points at an output of
    a wallet transaction that is a token output, that the wallet owns, that
    is unspent, whose transaction is not in the mempool, that no mempool
    transaction spends, and whose script is not checksum data. *)
Theorem FundTokenTransaction_selects_owned_tokens (tokenname : string)
    (amountMin : CAmount) (ret0 : list CTxIn) (i : CTxIn) :
  In i (appended ret0 (snd (FundTokenTransaction w tokenname amountMin ret0))) ->
  exists (e : uint256 * CWalletTx) (idx : nat) (o : CTxOut),
    In e (mapWallet w)
    /\ vout (tx (snd e)) !! idx = Some o
    /\ i = CTxIn_of (mkOutPoint (GetHash (tx (snd e))) (Z.of_nat idx))
    /\ IsTokenOutput o = true
    /\ IsMine w o = true
    /\ IsOutputUnspent w (prevout i) = true
    /\ IsInMempool w (GetHash (tx (snd e))) = false
    /\ IsOutputInMempool w (prevout i) = false
    /\ IsChecksumData (scriptPubKey o) = false.
Proof.
  rewrite FundTokenTransaction_unfold. intros Hin.
  apply appended_from_filter in Hin as (c & Hc & Hkeep & ->).
  unfold token_candidates in Hc. apply in_flat_map in Hc as (e & He & Hc).
  apply In_outputs_of in Hc as [Hhash Hidx].
  unfold token_eligible, token_other_filters in Hkeep.
  rewrite !andb_true_iff, !negb_true_iff in Hkeep.
  destruct Hkeep as [[[[[[[Htok Hmem] Hunspent] Hmine] Hspent] Hchk] _] _].
  exists e, (fst (snd c)), (cand_out c).
  unfold cand_input at 1, cand_outpoint at 1. rewrite Hhash in *.
  repeat split; assumption.
Qed.

End TokenFundingMore.

Lemma FundTokenTransaction_selects_owned_tokens_witness :
  exists (e : Wallet.uint256 * Wallet.CWalletTx) (idx : nat) (o : Wallet.CTxOut),
    In e (Wallet.mapWallet Scenario.wallet_deep)
    /\ Wallet.vout (Wallet.tx (snd e)) !! idx = Some o
    /\ Wallet.CTxIn_of (Wallet.mkOutPoint 8 1)
       = Wallet.CTxIn_of
           (Wallet.mkOutPoint (Wallet.GetHash (Wallet.tx (snd e))) (Z.of_nat idx))
    /\ @Wallet.IsTokenOutput Scenario.codec_ops o = true
    /\ Wallet.IsMine Scenario.wallet_deep o = true
    /\ Wallet.IsOutputUnspent Scenario.wallet_deep
         (Wallet.prevout (Wallet.CTxIn_of (Wallet.mkOutPoint 8 1))) = true
    /\ Wallet.IsInMempool Scenario.wallet_deep
         (Wallet.GetHash (Wallet.tx (snd e))) = false
    /\ Wallet.IsOutputInMempool Scenario.wallet_deep
         (Wallet.prevout (Wallet.CTxIn_of (Wallet.mkOutPoint 8 1))) = false
    /\ @Wallet.IsChecksumData Scenario.codec_ops (Wallet.scriptPubKey o) = false.
Proof.
  apply (@FundTokenTransaction_selects_owned_tokens Scenario.codec_ops
           Scenario.wallet_deep "GOLD" 5 []).
  vm_compute. left. reflexivity.
Defined.
